(** * Scheduler.h: a timer scheduler on top of Boost.Asio

    The class [Scheduler] owns an [io_service], a keep-alive [work] object and
    one [jthread] that runs [Service()], which blocks in [io_service_.run()].
    [ScheduleTimer] builds a [deadline_timer], and hands a completion handler
    to [async_wait]; the handler either logs the error code or calls the
    user's callback with [(timer_id, callback_args...)].

    The embedding keeps the code of Scheduler.h as functions in a small
    state-and-exception monad over the state of the process.  Boost.Asio is
    not part of the repository: its timer queue, its [run()] loop and its
    failures are the environment, modelled in the sections named "Boost.Asio"
    below and driven by a list of [event]s, one per atomic step of the user
    threads, of the clock or of the service thread. *)

From stdpp Require Import gmap strings pretty.
From Stdlib Require Import ZArith Lia FunctionalExtensionality.

Local Open Scope Z_scope.

(** ** Values *)

(** [boost::system::error_code]: a number and the text of [message()].
    [if (e)] tests the number against zero. *)
Record error_code := { ec_value : Z; ec_message : string }.

Definition ec_failed (e : error_code) : bool := negb (ec_value e =? 0).

Definition ec_success : error_code := {| ec_value := 0; ec_message := "Success" |}.

(** Exceptions: those derived from [std::exception] carry [what()]; anything
    else a callback throws is not matched by [catch (const std::exception&)]. *)
Inductive exn :=
| std_exception (what : string)
| foreign_exception.

Inductive stream := std_cout | std_cerr.

(** ** User code

    A callback is opaque C++ code.  What the scheduler can observe of one
    invocation is a sequence of commands ended by a return (with a value of
    the callback's own return type) or by an exception: text written to a
    stream, and re-entrant calls of either [ScheduleTimer] overload, which is
    how main.cpp re-arms a timer from inside [OnTimer].  Callables and
    arguments are plain values: copying or moving them into a closure or
    into a call, as Scheduler.h does on lines 91 and 126, has no effect and
    does not throw. *)
Inductive prog (R : Type) : Type :=
| Return (r : R)
| Throw (e : exn)
| Write (os : stream) (text : string) (k : prog R)
| CallScheduleTimer {A R' : Type} (timer_id duration : Z)
    (callback : Z -> A -> prog R') (callback_args : A) (k : prog R)
| CallScheduleTimerMember {T A R' : Type} (timer_id duration : Z)
    (member_function : T -> Z -> A -> prog R') (instance : T)
    (member_function_args : A) (k : prog R).

Arguments Return {R} r.
Arguments Throw {R} e.
Arguments Write {R} os text k.
Arguments CallScheduleTimer {R A R'} timer_id duration callback callback_args k.
Arguments CallScheduleTimerMember {R T A R'} timer_id duration member_function
  instance member_function_args k.

(** A call used as an expression statement: the value it returns is dropped. *)
Fixpoint discard {R} (p : prog R) : prog unit :=
  match p with
  | Return _ => Return tt
  | Throw e => Throw e
  | Write os text k => Write os text (discard k)
  | CallScheduleTimer i d cb a k => CallScheduleTimer i d cb a (discard k)
  | CallScheduleTimerMember i d mf inst a k =>
      CallScheduleTimerMember i d mf inst a (discard k)
  end.

(** ** Boost.Asio: state of the runtime *)

(** A [shared_ptr<deadline_timer>]: the allocation it points to and the
    absolute expiry, in milliseconds on the clock of the process. *)
Record deadline_timer := { timer_handle : nat; expires_at : Z }.

(** A wait registered with [async_wait], owned by the timer queue. *)
Record wait_op := { op_expiry : Z; op_handler : error_code -> prog unit }.

(** The thread behind [io_service_thread_]. *)
Inductive thread :=
| InRun (handler : option (nat * prog unit))
    (* inside io_service_.run(): idle, or executing the handler of a timer *)
| Finished     (* Service() has returned; the thread can be joined *)
| Terminated.  (* an exception left the thread function: std::terminate *)

Inductive lifetime := Alive | Destructing | Destroyed.

(** Which calls into the library throw, and with which [what()].  The first
    two are indexed by the allocation number of the timer concerned. *)
Record asio_faults := {
  timer_ctor_throws : nat -> option string;
  async_wait_throws : nat -> option string;
  stop_throws : option string
}.

Definition no_faults : asio_faults :=
  {| timer_ctor_throws := fun _ => None;
     async_wait_throws := fun _ => None;
     stop_throws := None |}.

(** Ghost record of what the runtime did, for stating properties. *)
Inductive ghost :=
| Armed (h : nat) (expiry : Z) (handler : error_code -> prog unit)
    (* async_wait accepted the wait of timer h *)
| Entered (h : nat) (e : error_code) (t : Z) (p : prog unit)
    (* at time t, run() called the handler of timer h with e: it runs p *)
| Left (h : nat)     (* the handler of timer h returned or threw *)
| Escaped (e : exn). (* a ScheduleTimer call made by a user thread threw *)

Record world := World {
  now : Z;
  timer_queue : gmap nat wait_op;   (* io_service_: waits not yet completed *)
  stopped : bool;                   (* io_service_.stopped() *)
  io_service_work_ : bool;
  io_service_thread_ : thread;
  phase : lifetime;
  timers_made : nat;
  cerr : list string;
  cout : list string;
  history : list ghost;
  faults : asio_faults
}.

Definition set_now (t : Z) (w : world) : world :=
  World t (timer_queue w) (stopped w) (io_service_work_ w) (io_service_thread_ w)
    (phase w) (timers_made w) (cerr w) (cout w) (history w) (faults w).
Definition set_queue (q : gmap nat wait_op) (w : world) : world :=
  World (now w) q (stopped w) (io_service_work_ w) (io_service_thread_ w)
    (phase w) (timers_made w) (cerr w) (cout w) (history w) (faults w).
Definition set_stopped (b : bool) (w : world) : world :=
  World (now w) (timer_queue w) b (io_service_work_ w) (io_service_thread_ w)
    (phase w) (timers_made w) (cerr w) (cout w) (history w) (faults w).
Definition set_work (b : bool) (w : world) : world :=
  World (now w) (timer_queue w) (stopped w) b (io_service_thread_ w)
    (phase w) (timers_made w) (cerr w) (cout w) (history w) (faults w).
Definition set_thread (th : thread) (w : world) : world :=
  World (now w) (timer_queue w) (stopped w) (io_service_work_ w) th
    (phase w) (timers_made w) (cerr w) (cout w) (history w) (faults w).
Definition set_phase (p : lifetime) (w : world) : world :=
  World (now w) (timer_queue w) (stopped w) (io_service_work_ w) (io_service_thread_ w)
    p (timers_made w) (cerr w) (cout w) (history w) (faults w).
Definition set_timers_made (n : nat) (w : world) : world :=
  World (now w) (timer_queue w) (stopped w) (io_service_work_ w) (io_service_thread_ w)
    (phase w) n (cerr w) (cout w) (history w) (faults w).
Definition record (g : ghost) (w : world) : world :=
  World (now w) (timer_queue w) (stopped w) (io_service_work_ w) (io_service_thread_ w)
    (phase w) (timers_made w) (cerr w) (cout w) (history w ++ [g]) (faults w).

(** [os << text << std::endl]: one line appended to the stream. *)
Definition write_line (os : stream) (text : string) (w : world) : world :=
  match os with
  | std_cerr =>
      World (now w) (timer_queue w) (stopped w) (io_service_work_ w)
        (io_service_thread_ w) (phase w) (timers_made w) (cerr w ++ [text]) (cout w)
        (history w) (faults w)
  | std_cout =>
      World (now w) (timer_queue w) (stopped w) (io_service_work_ w)
        (io_service_thread_ w) (phase w) (timers_made w) (cerr w) (cout w ++ [text])
        (history w) (faults w)
  end.

(** ** Statements that may throw *)

Inductive outcome (X : Type) :=
| Normal (x : X)
| Raised (e : exn).
Arguments Normal {X} x.
Arguments Raised {X} e.

Definition M (X : Type) : Type := world -> outcome X * world.

Definition ret {X} (x : X) : M X := fun w => (Normal x, w).

Definition bind {X Y} (m : M X) (k : X -> M Y) : M Y :=
  fun w =>
    match m w with
    | (Normal x, w') => k x w'
    | (Raised e, w') => (Raised e, w')
    end.

(** [try { body } catch (const std::exception& e) { handler(e.what()) }]. *)
Definition try_catch_std {X} (body : M X) (handler : string -> M X) : M X :=
  fun w =>
    match body w with
    | (Raised (std_exception what), w') => handler what w'
    | r => r
    end.

Notation "'let*' x ':=' m 'in' k" := (bind m (fun x => k))
  (at level 10, x name, m at level 100, k at level 200).

Definition cerr_line (text : string) : M unit :=
  fun w => (Normal tt, write_line std_cerr text w).

(** ** Boost.Asio: the calls Scheduler.h makes *)

(** [std::make_shared<deadline_timer>(io_service_, milliseconds(duration))]:
    a fresh timer that expires [duration] ms from now, unless the allocation
    or the constructor throws. *)
Definition make_shared_deadline_timer (duration : Z) : M deadline_timer :=
  fun w =>
    let h := timers_made w in
    let w' := set_timers_made (S h) w in
    match timer_ctor_throws (faults w) h with
    | Some what => (Raised (std_exception what), w')
    | None => (Normal {| timer_handle := h; expires_at := now w + duration |}, w')
    end.

(** [timer->async_wait(handler)]: the wait joins the timer queue, unless the
    call throws. *)
Definition async_wait (timer : deadline_timer) (handler : error_code -> prog unit)
  : M unit :=
  fun w =>
    match async_wait_throws (faults w) (timer_handle timer) with
    | Some what => (Raised (std_exception what), w)
    | None =>
        (Normal tt,
         record (Armed (timer_handle timer) (expires_at timer) handler)
           (set_queue
              (<[timer_handle timer :=
                   {| op_expiry := expires_at timer; op_handler := handler |}]>
                 (timer_queue w)) w))
    end.

(** [io_service_.stop()]. *)
Definition io_service_stop : M unit :=
  fun w =>
    match stop_throws (faults w) with
    | Some what => (Raised (std_exception what), w)
    | None => (Normal tt, set_stopped true w)
    end.

(** ** Scheduler.h *)

(** The lambda given to [async_wait] in overload (1), with its captures
    [timer_id], [callback] and [callback_args...] as parameters. *)
Definition wait_handler {A R} (timer_id : Z) (callback : Z -> A -> prog R)
    (callback_args : A) (e : error_code) : prog unit :=
  if ec_failed e then
    Write std_cerr
      ("error waiting on timer (id = " +:+ pretty timer_id +:+ "): " +:+ ec_message e)
      (Return tt)
  else
    discard (callback timer_id callback_args).

(** (1) [ScheduleTimer(timer_id, duration, callback, callback_args...)]. *)
Definition ScheduleTimer {A R} (timer_id duration : Z) (callback : Z -> A -> prog R)
    (callback_args : A) : M unit :=
  let* timer := make_shared_deadline_timer duration in
  try_catch_std
    (async_wait timer (wait_handler timer_id callback callback_args))
    (fun what =>
       cerr_line ("error scheduling timer (id = " +:+ pretty timer_id +:+ "): " +:+ what)).

(** The lambda built in overload (2): it binds [member_function] to
    [instance] and has the shape of a generic callback. *)
Definition member_callback {T A R} (member_function : T -> Z -> A -> prog R)
    (instance : T) : Z -> A -> prog unit :=
  fun timer_id lambda_args => discard (member_function instance timer_id lambda_args).

(** (2) [ScheduleTimer(timer_id, duration, member_function, instance,
    member_function_args...)]. *)
Definition ScheduleTimer_member {T A R} (timer_id duration : Z)
    (member_function : T -> Z -> A -> prog R) (instance : T)
    (member_function_args : A) : M unit :=
  let callback := member_callback member_function instance in
  ScheduleTimer timer_id duration callback member_function_args.

(** [Scheduler()]: the state once the constructor has returned.  The io_service
    is running, the work object keeps it alive, the thread is in [Service()]. *)
Definition Scheduler (env : asio_faults) (t0 : Z) : world :=
  {| now := t0;
     timer_queue := ∅;
     stopped := false;
     io_service_work_ := true;
     io_service_thread_ := InRun None;
     phase := Alive;
     timers_made := 0%nat;
     cerr := [];
     cout := [];
     history := [];
     faults := env |}.

(** The body of [~Scheduler()]. *)
Definition Scheduler_destructor : M unit :=
  try_catch_std io_service_stop
    (fun what => cerr_line ("error stopping io_service_: " +:+ what)).

(** [Service()]: [try { io_service_.run(); } catch (const std::exception& e)
    { ... }].  [Service_catch] is where an exception that leaves [run()]
    ends up; [Service_return] is [run()] returning. *)
Definition Service_catch (e : exn) (w : world) : world :=
  match e with
  | std_exception what =>
      set_thread Finished
        (write_line std_cerr ("exception in service thread: " +:+ what) w)
  | foreign_exception => set_thread Terminated w
  end.

Definition Service_return (w : world) : world := set_thread Finished w.

(** ** Boost.Asio: the loop in [run()], and the interleaving of threads *)

(** One atomic step of the process.  [Call] and [CallMember] are calls made
    by user threads; [Complete h e] is [run()] taking the wait of timer [h]
    off the queue and calling its handler with [e]; [Work] is the service
    thread executing the next command of the handler it is in; [RunReturns]
    is [run()] returning; [Destruct] is the body of [~Scheduler()], [Join]
    the destruction of the members after it, in reverse order of
    declaration: the jthread (which joins), the work object, the io_service
    (which destroys the handlers still queued without calling them). *)
Inductive event :=
| Elapse (dt : Z)
| Call {A R : Type} (timer_id duration : Z) (callback : Z -> A -> prog R)
    (callback_args : A)
| CallMember {T A R : Type} (timer_id duration : Z)
    (member_function : T -> Z -> A -> prog R) (instance : T)
    (member_function_args : A)
| Complete (h : nat) (e : error_code)
| Work
| RunReturns
| Destruct
| Join.

(** A call from a user thread: an exception it throws reaches the caller. *)
Definition user_call (m : M unit) (w : world) : world :=
  match m w with
  | (Normal _, w') => w'
  | (Raised e, w') => record (Escaped e) w'
  end.

(** A call from inside the handler of timer [h], followed by [k]: an
    exception it throws unwinds the handler. *)
Definition handler_call (m : M unit) (h : nat) (k : prog unit) (w : world) : world :=
  match m w with
  | (Normal _, w') => set_thread (InRun (Some (h, k))) w'
  | (Raised e, w') => set_thread (InRun (Some (h, Throw e))) w'
  end.

(** The service thread executes the head of the handler [p] of timer [h]. *)
Definition work (h : nat) (p : prog unit) (w : world) : world :=
  match p with
  | Return _ => record (Left h) (set_thread (InRun None) w)
  | Throw e => Service_catch e (record (Left h) w)
  | Write os text k => set_thread (InRun (Some (h, k))) (write_line os text w)
  | CallScheduleTimer i d cb a k => handler_call (ScheduleTimer i d cb a) h k w
  | CallScheduleTimerMember i d mf inst a k =>
      handler_call (ScheduleTimer_member i d mf inst a) h k w
  end.

(** A wait completes without error only once its timer has expired; with an
    error (such as [operation_aborted]) at any time. *)
Definition may_complete (op : wait_op) (e : error_code) (w : world) : bool :=
  ec_failed e || (op_expiry op <=? now w).

(** [run()] returns when the io_service is stopped or runs out of work. *)
Definition run_may_return (w : world) : bool :=
  stopped w || (negb (io_service_work_ w) && bool_decide (timer_queue w = ∅)).

(** [run()] takes the wait of timer [h] off the queue and calls its handler
    with [e], when the thread is idle in [run()] and the service not stopped. *)
Definition complete (h : nat) (e : error_code) (w : world) : option world :=
  match io_service_thread_ w, timer_queue w !! h with
  | InRun None, Some op =>
      if negb (stopped w) && may_complete op e w then
        Some (record (Entered h e (now w) (op_handler op e))
                (set_thread (InRun (Some (h, op_handler op e)))
                   (set_queue (delete h (timer_queue w)) w)))
      else None
  | _, _ => None
  end.

Definition service_work (w : world) : option world :=
  match io_service_thread_ w with
  | InRun (Some (h, p)) => Some (work h p w)
  | _ => None
  end.

Definition run_returns (w : world) : option world :=
  match io_service_thread_ w with
  | InRun None => if run_may_return w then Some (Service_return w) else None
  | _ => None
  end.

(** [~Scheduler()] is noexcept: an exception leaving its body would end the
    process. *)
Definition destruct_body (w : world) : option world :=
  match phase w with
  | Alive =>
      match Scheduler_destructor w with
      | (Normal _, w') => Some (set_phase Destructing w')
      | (Raised _, w') => Some (set_thread Terminated w')
      end
  | _ => None
  end.

(** The jthread destructor returns once the thread has finished. *)
Definition destruct_members (w : world) : option world :=
  match phase w, io_service_thread_ w with
  | Destructing, Finished =>
      Some (set_phase Destroyed (set_queue ∅ (set_work false w)))
  | _, _ => None
  end.

Definition elapse (dt : Z) (w : world) : option world :=
  if 0 <=? dt then Some (set_now (now w + dt) w) else None.

Definition call (m : M unit) (w : world) : option world :=
  match phase w with
  | Alive => Some (user_call m w)
  | _ => None
  end.

Definition terminated (w : world) : bool :=
  match io_service_thread_ w with
  | Terminated => true
  | _ => false
  end.

Definition step (ev : event) (w : world) : option world :=
  if terminated w then None
  else
    match ev with
    | Elapse dt => elapse dt w
    | Call i d cb a => call (ScheduleTimer i d cb a) w
    | CallMember i d mf inst a => call (ScheduleTimer_member i d mf inst a) w
    | Complete h e => complete h e w
    | Work => service_work w
    | RunReturns => run_returns w
    | Destruct => destruct_body w
    | Join => destruct_members w
    end.

Fixpoint run (evs : list event) (w : world) : option world :=
  match evs with
  | [] => Some w
  | ev :: evs' =>
      match step ev w with
      | Some w' => run evs' w'
      | None => None
      end
  end.


(** ** Views used to state the properties *)

(** The lines Scheduler.h writes to [std::cerr]. *)
Definition scheduling_error (timer_id : Z) (what : string) : string :=
  "error scheduling timer (id = " +:+ pretty timer_id +:+ "): " +:+ what.

Definition waiting_error (timer_id : Z) (e : error_code) : string :=
  "error waiting on timer (id = " +:+ pretty timer_id +:+ "): " +:+ ec_message e.

Definition stopping_error (what : string) : string :=
  "error stopping io_service_: " +:+ what.

Definition service_error (what : string) : string :=
  "exception in service thread: " +:+ what.

(** The wait that overload (1) registers at [w] when nothing throws. *)
Definition armed_wait {A R} (timer_id duration : Z) (callback : Z -> A -> prog R)
    (callback_args : A) (w : world) : wait_op :=
  {| op_expiry := now w + duration;
     op_handler := wait_handler timer_id callback callback_args |}.

(** A completion handler made by overload (1). *)
Definition is_wait_handler (f : error_code -> prog unit) : Prop :=
  exists (A R : Type) (timer_id : Z) (callback : Z -> A -> prog R) (callback_args : A),
    f = wait_handler timer_id callback callback_args.

(** The times the handler of timer [h] was called, oldest first. *)
Definition entry_of (h : nat) (g : ghost) : option (error_code * Z * prog unit) :=
  match g with
  | Entered h' e t p => if decide (h' = h) then Some (e, t, p) else None
  | _ => None
  end.

Definition entries (h : nat) (l : list ghost) : list (error_code * Z * prog unit) :=
  omap (entry_of h) l.

(** The waits armed on timer [h]: expiry and handler. *)
Definition arm_of (h : nat) (g : ghost) : option (Z * (error_code -> prog unit)) :=
  match g with
  | Armed h' x f => if decide (h' = h) then Some (x, f) else None
  | _ => None
  end.

Definition arms (h : nat) (l : list ghost) : list (Z * (error_code -> prog unit)) :=
  omap (arm_of h) l.

Arguments entries : simpl never.
Arguments arms : simpl never.



(** Scanning a history for overlapping handlers: the state is the handler
    that is open, if any; the scan fails when a handler is entered while
    another is open, or left while it is not the open one. *)
Definition track (open : option (option nat)) (g : ghost) : option (option nat) :=
  match open, g with
  | None, _ => None
  | Some None, Entered h _ _ _ => Some (Some h)
  | Some (Some _), Entered _ _ _ _ => None
  | Some (Some h), Left h' => if decide (h = h') then Some None else None
  | Some None, Left _ => None
  | Some o, _ => Some o
  end.

Definition executing (l : list ghost) : option (option nat) :=
  fold_left track l (Some None).

Arguments executing : simpl never.

Definition current (w : world) : option nat :=
  match io_service_thread_ w with
  | InRun (Some (h, _)) => Some h
  | _ => None
  end.

(** The part of the state the timers live in, and the ways a step changes it. *)
Definition core : Type := gmap nat wait_op * nat * list ghost.

Definition core_of (w : world) : core := (timer_queue w, timers_made w, history w).

Inductive effect : core -> core -> Prop :=
| effect_none c : effect c c
| effect_alloc q n l : effect (q, n, l) (q, S n, l)
| effect_arm q n l op :
    is_wait_handler (op_handler op) ->
    effect (q, n, l) (<[n := op]> q, S n, l ++ [Armed n (op_expiry op) (op_handler op)])
| effect_escape q n l e : effect (q, n, l) (q, n, l ++ [Escaped e])
| effect_enter q n l h op e t :
    q !! h = Some op ->
    (ec_failed e = false -> op_expiry op <= t) ->
    effect (q, n, l) (delete h q, n, l ++ [Entered h e t (op_handler op e)])
| effect_left q n l h : effect (q, n, l) (q, n, l ++ [Left h])
| effect_drop q n l : effect (q, n, l) (∅, n, l)
| effect_trans a b c : effect a b -> effect b c -> effect a c.


(** How the wait of a timer that exists at [c] can have evolved at [c']:
    still queued with nothing called, or off the queue after at most one
    call of its handler; a timer that is off the queue stays off. *)
Definition evolved (h : nat) (c c' : core) : Prop :=
  let '(q, _, l) := c in
  let '(q', _, l') := c' in
  arms h l' = arms h l /\
  match q !! h with
  | Some op =>
      (q' !! h = Some op /\ entries h l' = entries h l) \/
      (q' !! h = None /\
       (entries h l' = entries h l \/
        exists e t, entries h l' = entries h l ++ [(e, t, op_handler op e)] /\
                    (ec_failed e = false -> op_expiry op <= t)))
  | None => q' !! h = None /\ entries h l' = entries h l
  end.

(** A stretch of history in which no handler is called. *)
Definition quiet (l : list ghost) : Prop := forall h, entries h l = [].

(** The life of the timer with handle [h], as the queue and the history
    show it.  A handle not yet allocated is [life_unarmed]; so is a timer
    whose construction or arming threw. *)
Inductive timer_life (c : core) (h : nat) : Prop :=
| life_unarmed :
    c.1.1 !! h = None -> arms h c.2 = [] -> entries h c.2 = [] ->
    timer_life c h
| life_pending op :
    (h < c.1.2)%nat -> c.1.1 !! h = Some op ->
    arms h c.2 = [(op_expiry op, op_handler op)] ->
    is_wait_handler (op_handler op) -> entries h c.2 = [] ->
    timer_life c h
| life_entered x f e t :
    (h < c.1.2)%nat -> c.1.1 !! h = None ->
    arms h c.2 = [(x, f)] -> is_wait_handler f ->
    entries h c.2 = [(e, t, f e)] -> (ec_failed e = false -> x <= t) ->
    timer_life c h
| life_dropped x f :
    (h < c.1.2)%nat -> c.1.1 !! h = None ->
    arms h c.2 = [(x, f)] -> is_wait_handler f -> entries h c.2 = [] ->
    timer_life c h.

Definition consistent (w : world) : Prop := forall h, timer_life (core_of w) h.

(** [w1] is [w] after one call of overload (1) with these arguments.  The
    call is made by a user thread or by the handler the service thread is
    executing, and either directly or through overload (2), which passes
    its adapter closure as the callback. *)
Inductive calls_ScheduleTimer :
  forall {A R : Type}, Z -> Z -> (Z -> A -> prog R) -> A -> world -> world -> Prop :=
| generic_from_user {A R} timer_id duration (callback : Z -> A -> prog R)
    callback_args w w1 :
    step (Call timer_id duration callback callback_args) w = Some w1 ->
    calls_ScheduleTimer timer_id duration callback callback_args w w1
| generic_from_handler {A R} timer_id duration (callback : Z -> A -> prog R)
    callback_args w w1 h k :
    io_service_thread_ w =
      InRun (Some (h, CallScheduleTimer timer_id duration callback callback_args k)) ->
    step Work w = Some w1 ->
    calls_ScheduleTimer timer_id duration callback callback_args w w1
| member_from_user {T A R} timer_id duration (member_function : T -> Z -> A -> prog R)
    instance member_function_args w w1 :
    step (CallMember timer_id duration member_function instance member_function_args) w
      = Some w1 ->
    calls_ScheduleTimer timer_id duration (member_callback member_function instance)
      member_function_args w w1
| member_from_handler {T A R} timer_id duration
    (member_function : T -> Z -> A -> prog R) instance member_function_args w w1 h k :
    io_service_thread_ w =
      InRun (Some (h, CallScheduleTimerMember timer_id duration member_function instance
                        member_function_args k)) ->
    step Work w = Some w1 ->
    calls_ScheduleTimer timer_id duration (member_callback member_function instance)
      member_function_args w w1.

(** ** main.cpp: the callbacks of the demonstration program *)

Definition lambda_callback (timer_id : Z) (value : Z) : prog unit :=
  Write std_cout
    ("lambda callback for timer " +:+ pretty timer_id +:+
     " expired. int value: " +:+ pretty value)
    (Return tt).

Definition MyFunctor (timer_id : Z) (args : string * Z) : prog unit :=
  Write std_cout
    ("functor callback for timer " +:+ pretty timer_id +:+
     " expired. string data: " +:+ args.1 +:+ " int value: " +:+ pretty args.2)
    (Return tt).

Definition OnTimer (timer_id : Z) (_ : unit) : prog unit :=
  Write std_cout ("timer " +:+ pretty timer_id +:+ " expired") (Return tt).

(** [Model::OnTimer(timer_id, n)], with [n] a [uint8_t]: the instance is the
    object that owns the scheduler, [this]. *)
Fixpoint Model_OnTimer_from (fuel : nat) (this : unit) (timer_id : Z) (n : Z)
  : prog unit :=
  match fuel with
  | O => Return tt
  | S fuel' =>
      if 0 <? n mod 256 then
        Write std_cout ("timer " +:+ pretty timer_id +:+ " expired")
          (CallScheduleTimerMember timer_id 1000 (Model_OnTimer_from fuel') this
             (n mod 256 - 1) (Return tt))
      else Return tt
  end.

Definition Model_OnTimer : unit -> Z -> Z -> prog unit := Model_OnTimer_from 256.

(** A callback that returns a value, and one that throws. *)
Definition answering_callback (timer_id : Z) (value : Z) : prog Z :=
  Write std_cout ("timer " +:+ pretty timer_id) (Return (value + 1)).

Definition throwing_callback (timer_id : Z) (what : string) : prog unit :=
  Throw (std_exception what).

Definition throwing_int_callback (timer_id : Z) (_ : unit) : prog unit :=
  Throw foreign_exception.

(** An environment in which the allocation of the first timer fails, and one
    in which the first [async_wait] does. *)
Definition first_allocation_fails : asio_faults :=
  {| timer_ctor_throws := fun h => if decide (h = 0%nat) then Some "std::bad_alloc" else None;
     async_wait_throws := fun _ => None;
     stop_throws := None |}.

Definition first_async_wait_fails : asio_faults :=
  {| timer_ctor_throws := fun _ => None;
     async_wait_throws := fun h => if decide (h = 0%nat) then Some "std::bad_alloc" else None;
     stop_throws := None |}.

Definition stop_fails : asio_faults :=
  {| timer_ctor_throws := fun _ => None;
     async_wait_throws := fun _ => None;
     stop_throws := Some "stop failed" |}.

(** ** The bound-method form as the specification words it

    "adapts an operation that must run on a specific object by synthesizing
    a closure that, at fire time, invokes [member_function] on
    [instance_ref] with [(id, args...)]": written here without going
    through overload (1), to be compared with [ScheduleTimer_member]. *)
Definition bound_method_handler {T A R} (timer_id : Z)
    (member_function : T -> Z -> A -> prog R) (instance : T) (args : A)
    (e : error_code) : prog unit :=
  if ec_failed e then Write std_cerr (waiting_error timer_id e) (Return tt)
  else discard (member_function instance timer_id args).

Definition ScheduleTimer_bound_method {T A R} (timer_id duration : Z)
    (member_function : T -> Z -> A -> prog R) (instance : T) (args : A) : M unit :=
  let* timer := make_shared_deadline_timer duration in
  try_catch_std
    (async_wait timer (bound_method_handler timer_id member_function instance args))
    (fun what => cerr_line (scheduling_error timer_id what)).

(** The state a constructed scheduler is in after the events [evs]; the
    state after construction if some event of [evs] cannot happen. *)
Definition after (env : asio_faults) (t0 : Z) (evs : list event) : world :=
  default (Scheduler env t0) (run evs (Scheduler env t0)).

(** ** main.cpp: the schedule of [Model::Test()]

    The events of one firing of the timer with handle [h] that re-arms
    itself [m] more times: a second passes, the wait completes, the handler
    writes its line, calls [ScheduleTimer] and returns; the last handler,
    with the count at zero, only returns. *)
Fixpoint rearm_schedule (h : nat) (m : nat) : list event :=
  match m with
  | O => [Elapse 1000; Complete h ec_success; Work]
  | S m' =>
      [Elapse 1000; Complete h ec_success; Work; Work; Work] ++ rearm_schedule (S h) m'
  end.

(** A callback that schedules another timer and returns. *)
Definition chaining_callback (timer_id : Z) (delay : Z) : prog unit :=
  CallScheduleTimer (timer_id + 1) delay throwing_callback "late" (Return tt).

(** The line [Model::OnTimer] writes, and the state between two firings of
    the chain of timers it arms: the service thread is idle, no library call
    fails, and the one wait queued is that of the timer with handle [h],
    due within a second, whose handler calls [Model::OnTimer] with [n]. *)
Definition OnTimer_line (timer_id : Z) : string :=
  "timer " +:+ pretty timer_id +:+ " expired".

Definition rearmed (w : world) (h fuel : nat) (timer_id n : Z) : Prop :=
  io_service_thread_ w = InRun None /\
  stopped w = false /\
  faults w = no_faults /\
  timers_made w = S h /\
  (exists op,
      timer_queue w !! h = Some op /\
      op_expiry op <= now w + 1000 /\
      op_handler op =
        wait_handler timer_id (member_callback (Model_OnTimer_from fuel) tt) n) /\
  (forall k, k <> h -> timer_queue w !! k = None).

(** A member function that throws, and a callback that schedules it through
    overload (2) and returns. *)
Definition Model_fail (this : unit) (timer_id : Z) (what : string) : prog unit :=
  Throw (std_exception what).

Definition chaining_member_callback (timer_id : Z) (delay : Z) : prog unit :=
  CallScheduleTimerMember (timer_id + 1) delay Model_fail tt "late" (Return tt).
(** * Properties *)

(** ** What one call of [ScheduleTimer] does *)

Lemma ScheduleTimer_cases {A R} (timer_id duration : Z) (callback : Z -> A -> prog R)
    (callback_args : A) (w : world) :
  ScheduleTimer timer_id duration callback callback_args w =
  let h := timers_made w in
  let w' := set_timers_made (S h) w in
  match timer_ctor_throws (faults w) h with
  | Some what => (Raised (std_exception what), w')
  | None =>
      match async_wait_throws (faults w) h with
      | Some what => (Normal tt, write_line std_cerr (scheduling_error timer_id what) w')
      | None =>
          (Normal tt,
           record (Armed h (now w + duration)
                     (wait_handler timer_id callback callback_args))
             (set_queue
                (<[h := armed_wait timer_id duration callback callback_args w]>
                   (timer_queue w)) w'))
      end
  end.
Proof.
  unfold ScheduleTimer, bind, try_catch_std, make_shared_deadline_timer, async_wait,
    cerr_line, scheduling_error, armed_wait.
  cbn.
  destruct (timer_ctor_throws (faults w) (timers_made w)); [reflexivity|].
  cbn.
  destruct (async_wait_throws (faults w) (timers_made w)); reflexivity.
Qed.

(** ** Every step changes the timers in one of a few ways *)

Lemma wait_handler_is_wait_handler {A R} (timer_id : Z) (callback : Z -> A -> prog R)
    (callback_args : A) :
  is_wait_handler (wait_handler timer_id callback callback_args).
Proof. unfold is_wait_handler. eauto 10. Qed.

Lemma ScheduleTimer_effect {A R} (timer_id duration : Z) (callback : Z -> A -> prog R)
    (callback_args : A) (w : world) :
  effect (core_of w)
    (core_of (snd (ScheduleTimer timer_id duration callback callback_args w))).
Proof.
  rewrite ScheduleTimer_cases. cbn zeta.
  destruct (timer_ctor_throws _ _); [apply effect_alloc|].
  destruct (async_wait_throws _ _); [apply effect_alloc|].
  unfold core_of; cbn.
  apply (effect_arm _ _ _ (armed_wait timer_id duration callback callback_args w)).
  apply wait_handler_is_wait_handler.
Qed.

Lemma user_call_effect (m : M unit) (w : world) :
  effect (core_of w) (core_of (snd (m w))) ->
  effect (core_of w) (core_of (user_call m w)).
Proof.
  unfold user_call. destruct (m w) as [[x|e] w']; cbn; [easy|].
  intros H. eapply effect_trans; [exact H|]. apply effect_escape.
Qed.

Lemma handler_call_effect (m : M unit) (h : nat) (k : prog unit) (w : world) :
  effect (core_of w) (core_of (snd (m w))) ->
  effect (core_of w) (core_of (handler_call m h k w)).
Proof.
  unfold handler_call. destruct (m w) as [[x|e] w']; cbn; easy.
Qed.

Lemma work_effect (h : nat) (p : prog unit) (w : world) :
  effect (core_of w) (core_of (work h p w)).
Proof.
  destruct p as [r|e|os text k|A R' i d cb a k|T A R' i d mf inst a k]; cbn.
  - apply effect_left.
  - destruct e; apply effect_left.
  - destruct os; apply effect_none.
  - apply handler_call_effect, ScheduleTimer_effect.
  - apply handler_call_effect, ScheduleTimer_effect.
Qed.

Lemma Scheduler_destructor_cases (w : world) :
  Scheduler_destructor w =
  match stop_throws (faults w) with
  | Some what => (Normal tt, write_line std_cerr (stopping_error what) w)
  | None => (Normal tt, set_stopped true w)
  end.
Proof.
  unfold Scheduler_destructor, try_catch_std, io_service_stop, cerr_line.
  destruct (stop_throws (faults w)); reflexivity.
Qed.

Lemma complete_inv (h : nat) (e : error_code) (w w' : world) :
  complete h e w = Some w' ->
  exists op,
    io_service_thread_ w = InRun None /\ timer_queue w !! h = Some op /\
    stopped w = false /\ (ec_failed e = false -> op_expiry op <= now w) /\
    w' = record (Entered h e (now w) (op_handler op e))
           (set_thread (InRun (Some (h, op_handler op e)))
              (set_queue (delete h (timer_queue w)) w)).
Proof.
  unfold complete.
  destruct (io_service_thread_ w) as [[?|]| |]; try discriminate.
  destruct (timer_queue w !! h) as [op|]; try discriminate.
  destruct (negb (stopped w) && may_complete op e w) eqn:Hg; try discriminate.
  intros [= <-]. apply andb_prop in Hg as [Hs Hc].
  exists op. repeat split.
  - destruct (stopped w); [discriminate|reflexivity].
  - intros He. unfold may_complete in Hc. rewrite He in Hc. cbn in Hc. lia.
Qed.

Lemma complete_effect (h : nat) (e : error_code) (w w' : world) :
  complete h e w = Some w' -> effect (core_of w) (core_of w').
Proof.
  intros (op & _ & Hq & _ & Ht & ->)%complete_inv.
  unfold core_of; cbn. now apply effect_enter.
Qed.

Lemma destruct_body_inv (w w' : world) :
  destruct_body w = Some w' ->
  phase w = Alive /\
  w' = set_phase Destructing
         match stop_throws (faults w) with
         | Some what => write_line std_cerr (stopping_error what) w
         | None => set_stopped true w
         end.
Proof.
  unfold destruct_body. rewrite Scheduler_destructor_cases.
  destruct (phase w); try discriminate.
  destruct (stop_throws (faults w)); intros [= <-]; auto.
Qed.

Lemma destruct_members_inv (w w' : world) :
  destruct_members w = Some w' ->
  phase w = Destructing /\ io_service_thread_ w = Finished /\
  w' = set_phase Destroyed (set_queue ∅ (set_work false w)).
Proof.
  unfold destruct_members.
  destruct (phase w); try discriminate.
  destruct (io_service_thread_ w); try discriminate.
  intros [= <-]; auto.
Qed.

Lemma call_inv (m : M unit) (w w' : world) :
  call m w = Some w' -> phase w = Alive /\ w' = user_call m w.
Proof. unfold call. destruct (phase w); try discriminate. intros [= <-]; auto. Qed.

Lemma service_work_inv (w w' : world) :
  service_work w = Some w' ->
  exists h p, io_service_thread_ w = InRun (Some (h, p)) /\ w' = work h p w.
Proof.
  unfold service_work.
  destruct (io_service_thread_ w) as [[[h p]|]| |]; try discriminate.
  intros [= <-]; eauto.
Qed.

Lemma run_returns_inv (w w' : world) :
  run_returns w = Some w' ->
  io_service_thread_ w = InRun None /\ run_may_return w = true /\
  w' = Service_return w.
Proof.
  unfold run_returns.
  destruct (io_service_thread_ w) as [[?|]| |]; try discriminate.
  destruct (run_may_return w); try discriminate.
  intros [= <-]; auto.
Qed.

Lemma elapse_inv (dt : Z) (w w' : world) :
  elapse dt w = Some w' -> 0 <= dt /\ w' = set_now (now w + dt) w.
Proof.
  unfold elapse. destruct (0 <=? dt) eqn:H; try discriminate.
  intros [= <-]. split; [lia|reflexivity].
Qed.

Lemma step_not_terminated (ev : event) (w w' : world) :
  step ev w = Some w' -> terminated w = false.
Proof. unfold step. destruct (terminated w); [discriminate|reflexivity]. Qed.

Lemma step_effect (ev : event) (w w' : world) :
  step ev w = Some w' -> effect (core_of w) (core_of w').
Proof.
  unfold step. destruct (terminated w); [discriminate|].
  destruct ev as [dt|A R i d cb a|T A R i d mf inst a|h e| | | |].
  - intros [_ ->]%elapse_inv. apply effect_none.
  - intros [_ ->]%call_inv. apply user_call_effect, ScheduleTimer_effect.
  - intros [_ ->]%call_inv. apply user_call_effect, ScheduleTimer_effect.
  - apply complete_effect.
  - intros (h & p & _ & ->)%service_work_inv. apply work_effect.
  - intros (_ & _ & ->)%run_returns_inv. apply effect_none.
  - intros [_ ->]%destruct_body_inv.
    destruct (stop_throws (faults w)); apply effect_none.
  - intros (_ & _ & ->)%destruct_members_inv. apply effect_drop.
Qed.

Lemma run_effect (evs : list event) (w w' : world) :
  run evs w = Some w' -> effect (core_of w) (core_of w').
Proof.
  revert w. induction evs as [|ev evs IH]; cbn; intros w.
  - intros [= <-]. apply effect_none.
  - destruct (step ev w) as [w1|] eqn:Hs; [|discriminate].
    intros H. eapply effect_trans; [eapply step_effect; eassumption|auto].
Qed.

(** ** The wait of one timer along an execution *)

Lemma entries_snoc (h : nat) (l : list ghost) (g : ghost) :
  entries h (l ++ [g]) =
  entries h l ++ match entry_of h g with Some x => [x] | None => [] end.
Proof. unfold entries. rewrite omap_app. cbn. now destruct (entry_of h g). Qed.

Lemma arms_snoc (h : nat) (l : list ghost) (g : ghost) :
  arms h (l ++ [g]) =
  arms h l ++ match arm_of h g with Some x => [x] | None => [] end.
Proof. unfold arms. rewrite omap_app. cbn. now destruct (arm_of h g). Qed.

Lemma effect_made (c c' : core) : effect c c' -> (c.1.2 <= c'.1.2)%nat.
Proof. induction 1; cbn in *; lia. Qed.

Lemma evolved_refl (h : nat) (c : core) : evolved h c c.
Proof.
  destruct c as [[q n] l]; cbn. split; [reflexivity|].
  destruct (q !! h); auto.
Qed.

Lemma evolved_trans (h : nat) (a b c : core) :
  evolved h a b -> evolved h b c -> evolved h a c.
Proof.
  destruct a as [[qa na] la], b as [[qb nb] lb], c as [[qc nc] lc]; cbn.
  intros [Ha1 Ha2] [Hb1 Hb2]. split; [congruence|].
  destruct (qa !! h) as [op|].
  - destruct Ha2 as [[Hq He]|[Hq He]]; rewrite Hq in Hb2.
    + rewrite <- He. exact Hb2.
    + destruct Hb2 as [Hq' He']. right. split; [assumption|].
      rewrite He'. exact He.
  - destruct Ha2 as [Hq He]. rewrite Hq in Hb2. destruct Hb2. split; congruence.
Qed.

Lemma effect_evolved (c c' : core) :
  effect c c' -> forall h, (h < c.1.2)%nat -> evolved h c c'.
Proof.
  induction 1 as [c|q n l|q n l op Hop|q n l e|q n l h' op e t Hq Ht|q n l h'|q n l
                 |a b c Hab IHab Hbc IHbc]; intros h Hh; cbn in Hh.
  - apply evolved_refl.
  - apply (evolved_refl h (q, n, l)).
  - cbn. rewrite arms_snoc, entries_snoc. cbn.
    destruct (decide (n = h)) as [->|Hne]; [lia|].
    rewrite lookup_insert_ne by assumption. rewrite !app_nil_r.
    split; [reflexivity|]. destruct (q !! h); auto.
  - cbn. rewrite arms_snoc, entries_snoc. cbn. rewrite !app_nil_r.
    split; [reflexivity|]. destruct (q !! h); auto.
  - cbn. rewrite arms_snoc, entries_snoc. cbn. rewrite app_nil_r.
    split; [reflexivity|].
    destruct (decide (h' = h)) as [->|Hne].
    + rewrite Hq. right. rewrite lookup_delete_eq. split; [reflexivity|].
      right. exists e, t. auto.
    + rewrite lookup_delete_ne by assumption. rewrite app_nil_r.
      destruct (q !! h); auto.
  - cbn. rewrite arms_snoc, entries_snoc. cbn. rewrite !app_nil_r.
    split; [reflexivity|]. destruct (q !! h); auto.
  - cbn. split; [reflexivity|]. rewrite lookup_empty. destruct (q !! h); auto.
  - eapply evolved_trans; [apply IHab; assumption|].
    apply IHbc. apply effect_made in Hab. lia.
Qed.

Lemma timer_life_fresh (c : core) (h : nat) :
  timer_life c h -> (c.1.2 <= h)%nat ->
  c.1.1 !! h = None /\ arms h c.2 = [] /\ entries h c.2 = [].
Proof. destruct 1; intros; (lia || auto). Qed.

Lemma timer_life_same_queue (q : gmap nat wait_op) (n n' : nat) (l l' : list ghost)
    (h : nat) :
  (n <= n')%nat -> arms h l' = arms h l -> entries h l' = entries h l ->
  timer_life (q, n, l) h -> timer_life (q, n', l') h.
Proof.
  intros Hn Ha He [H1 H2 H3|op H0 H1 H2 H3 H4|x f e t H0 H1 H2 H3 H4 H5|x f H0 H1 H2 H3 H4];
    cbn in *.
  - apply life_unarmed; cbn; first [assumption | lia | congruence].
  - apply (life_pending _ _ op); cbn; first [assumption | lia | congruence].
  - apply (life_entered _ _ x f e t); cbn; first [assumption | lia | congruence].
  - apply (life_dropped _ _ x f); cbn; first [assumption | lia | congruence].
Qed.

Lemma effect_consistent (c c' : core) :
  effect c c' -> (forall h, timer_life c h) -> forall h, timer_life c' h.
Proof.
  induction 1 as [c|q n l|q n l op Hop|q n l e|q n l h' op e t Hq Ht|q n l h'|q n l
                 |a b c Hab IHab Hbc IHbc]; intros Hc h; auto.
  - apply (timer_life_same_queue q n _ l); auto.
  - destruct (decide (n = h)) as [->|Hne].
    + destruct (timer_life_fresh _ _ (Hc h)) as (Hq & Ha & He); [cbn; lia|].
      cbn in *. apply (life_pending _ _ op); cbn.
      * lia.
      * apply lookup_insert_eq.
      * rewrite arms_snoc, Ha. cbn. now rewrite decide_True.
      * assumption.
      * rewrite entries_snoc, He. reflexivity.
    + specialize (Hc h).
      assert (Ha : arms h (l ++ [Armed n (op_expiry op) (op_handler op)]) = arms h l).
      { rewrite arms_snoc. cbn. rewrite decide_False by assumption. apply app_nil_r. }
      assert (He : entries h (l ++ [Armed n (op_expiry op) (op_handler op)]) = entries h l).
      { rewrite entries_snoc. apply app_nil_r. }
      destruct Hc as [H1 H2 H3|op' H0 H1 H2 H3 H4|x f e t H0 H1 H2 H3 H4 H5|x f H0 H1 H2 H3 H4];
        cbn in *.
      * apply life_unarmed; cbn; rewrite ?lookup_insert_ne by assumption; congruence.
      * apply (life_pending _ _ op'); cbn;
          rewrite ?lookup_insert_ne by assumption; first [assumption | lia | congruence].
      * apply (life_entered _ _ x f e t); cbn;
          rewrite ?lookup_insert_ne by assumption; first [assumption | lia | congruence].
      * apply (life_dropped _ _ x f); cbn;
          rewrite ?lookup_insert_ne by assumption; first [assumption | lia | congruence].
  - apply (timer_life_same_queue q n _ l); auto.
    + rewrite arms_snoc. apply app_nil_r.
    + rewrite entries_snoc. apply app_nil_r.
  - assert (Ha : arms h (l ++ [Entered h' e t (op_handler op e)]) = arms h l).
    { rewrite arms_snoc. apply app_nil_r. }
    destruct (decide (h' = h)) as [->|Hne].
    + specialize (Hc h).
      destruct Hc as [H1 H2 H3|op' H0 H1 H2 H3 H4|x f e' t' H0 H1 H2 H3 H4 H5|x f H0 H1 H2 H3 H4];
        cbn in *; try congruence.
      assert (op' = op) as -> by congruence.
      apply (life_entered _ _ (op_expiry op) (op_handler op) e t); cbn; auto.
      * apply lookup_delete_eq.
      * congruence.
      * rewrite entries_snoc, H4. cbn. now rewrite decide_True.
    + assert (He : entries h (l ++ [Entered h' e t (op_handler op e)]) = entries h l).
      { rewrite entries_snoc. cbn. rewrite decide_False by assumption. apply app_nil_r. }
      specialize (Hc h).
      destruct Hc as [H1 H2 H3|op' H0 H1 H2 H3 H4|x f e' t' H0 H1 H2 H3 H4 H5|x f H0 H1 H2 H3 H4];
        cbn in *.
      * apply life_unarmed; cbn; rewrite ?lookup_delete_ne by assumption; congruence.
      * apply (life_pending _ _ op'); cbn;
          rewrite ?lookup_delete_ne by assumption; first [assumption | lia | congruence].
      * apply (life_entered _ _ x f e' t'); cbn;
          rewrite ?lookup_delete_ne by assumption; first [assumption | lia | congruence].
      * apply (life_dropped _ _ x f); cbn;
          rewrite ?lookup_delete_ne by assumption; first [assumption | lia | congruence].
  - apply (timer_life_same_queue q n _ l); auto.
    + rewrite arms_snoc. apply app_nil_r.
    + rewrite entries_snoc. apply app_nil_r.
  - specialize (Hc h).
    destruct Hc as [H1 H2 H3|op' H0 H1 H2 H3 H4|x f e' t' H0 H1 H2 H3 H4 H5|x f H0 H1 H2 H3 H4];
      cbn in *.
    + apply life_unarmed; cbn; auto.
    + apply (life_dropped _ _ (op_expiry op') (op_handler op')); cbn; auto.
    + apply (life_entered _ _ x f e' t'); cbn; auto.
    + apply (life_dropped _ _ x f); cbn; auto.
Qed.

Lemma Scheduler_consistent (env : asio_faults) (t0 : Z) : consistent (Scheduler env t0).
Proof. intros h. now apply life_unarmed. Qed.

Lemma run_consistent (evs : list event) (w w' : world) :
  run evs w = Some w' -> consistent w -> consistent w'.
Proof. intros H%run_effect Hc. exact (effect_consistent _ _ H Hc). Qed.

Lemma step_consistent (ev : event) (w w' : world) :
  step ev w = Some w' -> consistent w -> consistent w'.
Proof. intros H%step_effect Hc. exact (effect_consistent _ _ H Hc). Qed.

(** ** From a call of [ScheduleTimer] to the call of its handler *)

Lemma wait_handler_success {A R} (timer_id : Z) (callback : Z -> A -> prog R)
    (callback_args : A) (e : error_code) :
  ec_failed e = false ->
  wait_handler timer_id callback callback_args e = discard (callback timer_id callback_args).
Proof. unfold wait_handler. now intros ->. Qed.

Lemma wait_handler_failure {A R} (timer_id : Z) (callback : Z -> A -> prog R)
    (callback_args : A) (e : error_code) :
  ec_failed e = true ->
  wait_handler timer_id callback callback_args e =
  Write std_cerr (waiting_error timer_id e) (Return tt).
Proof. unfold wait_handler. now intros ->. Qed.

Lemma user_call_core (m : M unit) (w : world) :
  timer_queue (user_call m w) = timer_queue (snd (m w)) /\
  timers_made (user_call m w) = timers_made (snd (m w)) /\
  now (user_call m w) = now (snd (m w)) /\
  io_service_thread_ (user_call m w) = io_service_thread_ (snd (m w)) /\
  stopped (user_call m w) = stopped (snd (m w)).
Proof. unfold user_call. destruct (m w) as [[x|e] w']; cbn; auto. Qed.

(** After a call at [w], the handle [timers_made w] is used up; its wait is
    queued when nothing threw. *)
Lemma ScheduleTimer_queue {A R} (timer_id duration : Z) (callback : Z -> A -> prog R)
    (callback_args : A) (w : world) :
  consistent w ->
  let w' := snd (ScheduleTimer timer_id duration callback callback_args w) in
  timers_made w' = S (timers_made w) /\
  now w' = now w /\
  io_service_thread_ w' = io_service_thread_ w /\
  stopped w' = stopped w /\
  match timer_ctor_throws (faults w) (timers_made w),
        async_wait_throws (faults w) (timers_made w) with
  | None, None =>
      timer_queue w' !! timers_made w =
      Some (armed_wait timer_id duration callback callback_args w)
  | _, _ => timer_queue w' !! timers_made w = None
  end.
Proof.
  intros Hc. rewrite ScheduleTimer_cases. cbn zeta.
  destruct (timer_life_fresh _ _ (Hc (timers_made w))) as (Hq & _); [cbn; lia|].
  cbn in Hq.
  destruct (timer_ctor_throws _ _); [cbn; auto 6|].
  destruct (async_wait_throws _ _); cbn; auto 6.
  repeat split. apply lookup_insert_eq.
Qed.

(** Whatever happens after the call, the handler that [run()] calls for the
    timer is the one the call registered, and a call without error comes
    no earlier than the expiry. *)
Lemma completion_of_queued_wait (h : nat) (op : wait_op) (w1 w2 w3 : world)
    (evs : list event) (e : error_code) :
  (h < timers_made w1)%nat ->
  timer_queue w1 !! h = Some op \/ timer_queue w1 !! h = None ->
  run evs w1 = Some w2 ->
  step (Complete h e) w2 = Some w3 ->
  timer_queue w1 !! h = Some op /\
  io_service_thread_ w3 = InRun (Some (h, op_handler op e)) /\
  now w3 = now w2 /\
  (ec_failed e = false -> op_expiry op <= now w2).
Proof.
  intros Hh Hq Hrun Hstep.
  apply run_effect in Hrun. apply effect_evolved with (h := h) in Hrun; [|exact Hh].
  unfold core_of, evolved in Hrun. destruct Hrun as [_ Hev].
  unfold step in Hstep. destruct (terminated w2); [discriminate|].
  apply complete_inv in Hstep as (op' & _ & Hq2 & _ & Ht & ->).
  destruct Hq as [Hq|Hq]; rewrite Hq in Hev.
  - destruct Hev as [[Hq' _]|[Hq' _]]; [|congruence].
    assert (op' = op) as -> by congruence. cbn. auto.
  - destruct Hev; congruence.
Qed.

Lemma handler_call_core (m : M unit) (h : nat) (k : prog unit) (w : world) :
  timer_queue (handler_call m h k w) = timer_queue (snd (m w)) /\
  timers_made (handler_call m h k w) = timers_made (snd (m w)) /\
  now (handler_call m h k w) = now (snd (m w)) /\
  stopped (handler_call m h k w) = stopped (snd (m w)).
Proof. unfold handler_call. destruct (m w) as [[x|e] w']; cbn; auto. Qed.

Lemma calls_ScheduleTimer_step {A R} (timer_id duration : Z)
    (callback : Z -> A -> prog R) (callback_args : A) (w w1 : world) :
  calls_ScheduleTimer timer_id duration callback callback_args w w1 ->
  (w1 = user_call (ScheduleTimer timer_id duration callback callback_args) w \/
   exists h k,
     w1 = handler_call (ScheduleTimer timer_id duration callback callback_args) h k w) /\
  exists ev, step ev w = Some w1 /\ (forall h e, ev <> Complete h e) /\ ev <> Join.
Proof.
  intros Hcall.
  destruct Hcall as [A R i d cb a w w1 Hs|A R i d cb a w w1 h k Hth Hs
                    |T A R i d mf inst a w w1 Hs|T A R i d mf inst a w w1 h k Hth Hs].
  all: split; [|eexists; split; [exact Hs|split; intros; discriminate]].
  all: unfold step in Hs; destruct (terminated w); try discriminate.
  - apply call_inv in Hs as [_ ->]. auto.
  - apply service_work_inv in Hs as (h' & p & Hth' & ->).
    rewrite Hth in Hth'. injection Hth' as <- <-. right. exists h, k. reflexivity.
  - apply call_inv in Hs as [_ ->]. auto.
  - apply service_work_inv in Hs as (h' & p & Hth' & ->).
    rewrite Hth in Hth'. injection Hth' as <- <-. right. exists h, k. reflexivity.
Qed.

Lemma calls_ScheduleTimer_queue {A R} (timer_id duration : Z)
    (callback : Z -> A -> prog R) (callback_args : A) (w w1 : world) :
  consistent w ->
  calls_ScheduleTimer timer_id duration callback callback_args w w1 ->
  (timers_made w < timers_made w1)%nat /\
  now w1 = now w /\
  stopped w1 = stopped w /\
  match timer_ctor_throws (faults w) (timers_made w),
        async_wait_throws (faults w) (timers_made w) with
  | None, None =>
      timer_queue w1 !! timers_made w =
      Some (armed_wait timer_id duration callback callback_args w)
  | _, _ => timer_queue w1 !! timers_made w = None
  end.
Proof.
  intros Hc Hcall.
  pose proof (ScheduleTimer_queue timer_id duration callback callback_args w Hc)
    as (Hm & Hn & _ & Hs & Hq).
  destruct (calls_ScheduleTimer_step _ _ _ _ _ _ Hcall) as [[->|(h & k & ->)] _].
  - destruct (user_call_core (ScheduleTimer timer_id duration callback callback_args) w)
      as (-> & -> & -> & _ & ->).
    rewrite Hm. repeat split; auto.
  - destruct (handler_call_core (ScheduleTimer timer_id duration callback callback_args)
                h k w) as (-> & -> & -> & ->).
    rewrite Hm. repeat split; auto.
Qed.

Lemma scheduled_wait_completion {A R} (timer_id duration : Z)
    (callback : Z -> A -> prog R) (callback_args : A)
    (w w1 w2 w3 : world) (evs : list event) (e : error_code) :
  consistent w ->
  calls_ScheduleTimer timer_id duration callback callback_args w w1 ->
  run evs w1 = Some w2 ->
  step (Complete (timers_made w) e) w2 = Some w3 ->
  io_service_thread_ w3 =
    InRun (Some (timers_made w, wait_handler timer_id callback callback_args e)) /\
  now w3 = now w2 /\
  (ec_failed e = false -> now w + duration <= now w2).
Proof.
  intros Hc Hcall Hrun Hstep.
  destruct (calls_ScheduleTimer_queue _ _ _ _ _ _ Hc Hcall) as (Hlt & _ & _ & Hq).
  assert (Hqq : timer_queue w1 !! timers_made w =
                Some (armed_wait timer_id duration callback callback_args w) \/
                timer_queue w1 !! timers_made w = None).
  { destruct (timer_ctor_throws _ _); [auto|].
    destruct (async_wait_throws _ _); auto. }
  destruct (completion_of_queued_wait _ _ _ _ _ _ _ Hlt Hqq Hrun Hstep)
    as (_ & Hth & Hnow & Ht).
  auto.
Qed.

(** Once the handler of a timer has been called, it is never called again. *)
Lemma complete_entries (h : nat) (e : error_code) (w w' : world) :
  consistent w ->
  step (Complete h e) w = Some w' ->
  exists op,
    timer_queue w !! h = Some op /\
    entries h (history w') = [(e, now w, op_handler op e)] /\
    timer_queue w' !! h = None /\
    (h < timers_made w')%nat.
Proof.
  intros Hc Hstep. unfold step in Hstep. destruct (terminated w); [discriminate|].
  apply complete_inv in Hstep as (op & _ & Hq & _ & _ & ->).
  exists op. cbn. split; [exact Hq|].
  destruct (Hc h) as [H1 _ _|op' H0 H1 _ _ H4|? ? ? ? _ H1 _ _ _ _|? ? _ H1 _ _ _];
    cbn in *; try congruence.
  rewrite entries_snoc, H4. cbn. rewrite decide_True by reflexivity.
  repeat split; [apply lookup_delete_eq|assumption].
Qed.

Lemma run_entries_off_queue (h : nat) (evs : list event) (w w' : world) :
  (h < timers_made w)%nat ->
  timer_queue w !! h = None ->
  run evs w = Some w' ->
  timer_queue w' !! h = None /\ entries h (history w') = entries h (history w).
Proof.
  intros Hh Hq Hrun. apply run_effect in Hrun.
  apply effect_evolved with (h := h) in Hrun; [|exact Hh].
  unfold core_of, evolved in Hrun. rewrite Hq in Hrun. tauto.
Qed.

Lemma reachable_consistent (env : asio_faults) (t0 : Z) (evs : list event) (w : world) :
  run evs (Scheduler env t0) = Some w -> consistent w.
Proof. intros H. eapply run_consistent; [exact H|apply Scheduler_consistent]. Qed.

Lemma run_app (evs1 evs2 : list event) (w : world) :
  run (evs1 ++ evs2) w =
  match run evs1 w with
  | Some w' => run evs2 w'
  | None => None
  end.
Proof.
  revert w. induction evs1 as [|ev evs1 IH]; intros w; cbn; [reflexivity|].
  destruct (step ev w); auto.
Qed.

Lemma calls_ScheduleTimer_consistent {A R} (timer_id duration : Z)
    (callback : Z -> A -> prog R) (callback_args : A) (w w1 : world) :
  consistent w ->
  calls_ScheduleTimer timer_id duration callback callback_args w w1 ->
  consistent w1.
Proof.
  intros Hc Hcall.
  destruct (calls_ScheduleTimer_step _ _ _ _ _ _ Hcall) as [_ (ev & Hstep & _)].
  eapply step_consistent; eassumption.
Qed.


Lemma ScheduleTimer_quiet {A R} (timer_id duration : Z) (callback : Z -> A -> prog R)
    (callback_args : A) (w : world) :
  consistent w ->
  let w' := snd (ScheduleTimer timer_id duration callback callback_args w) in
  (exists l, history w' = history w ++ l /\ quiet l) /\
  (forall h op, timer_queue w !! h = Some op -> timer_queue w' !! h = Some op).
Proof.
  intros Hc. rewrite ScheduleTimer_cases. cbn zeta.
  destruct (timer_life_fresh _ _ (Hc (timers_made w))) as (Hq & _); [cbn; lia|].
  cbn in Hq.
  assert (Hnil : exists l, history w = history w ++ l /\ quiet l).
  { exists []. split; [now rewrite app_nil_r|easy]. }
  destruct (timer_ctor_throws _ _); [cbn; auto|].
  destruct (async_wait_throws _ _); [cbn; auto|].
  cbn. split.
  - eexists. split; [reflexivity|]. intros h. reflexivity.
  - intros h op Hop. rewrite lookup_insert_ne; [exact Hop|]. congruence.
Qed.

(** What one step does to the queue and to the history: it calls the handler
    of a queued wait, or it destroys the io_service with the waits still
    queued, or it leaves every queued wait in place and calls no handler. *)
Lemma step_summary (ev : event) (w w' : world) :
  consistent w ->
  step ev w = Some w' ->
  (exists h e op,
      ev = Complete h e /\ timer_queue w !! h = Some op /\
      timer_queue w' = delete h (timer_queue w) /\
      history w' = history w ++ [Entered h e (now w) (op_handler op e)]) \/
  (ev = Join /\ timer_queue w' = ∅ /\ history w' = history w) \/
  ((exists l, history w' = history w ++ l /\ quiet l) /\
   (forall h op, timer_queue w !! h = Some op -> timer_queue w' !! h = Some op)).
Proof.
  intros Hc. unfold step. destruct (terminated w); [discriminate|].
  assert (Hnil : exists l, history w = history w ++ l /\ quiet l).
  { exists []. split; [now rewrite app_nil_r|easy]. }
  assert (Hone : forall g, (forall h, entry_of h g = None) ->
                           exists l, history w ++ [g] = history w ++ l /\ quiet l).
  { intros g Hg. exists [g]. split; [reflexivity|]. intros h.
    unfold entries. cbn. now rewrite Hg. }
  assert (Happ : forall (m : M unit) (w1 : world),
             ((exists l, history (snd (m w)) = history w ++ l /\ quiet l) /\
              (forall h op, timer_queue w !! h = Some op ->
                            timer_queue (snd (m w)) !! h = Some op)) ->
             (history w1 = history (snd (m w)) \/
              exists e, history w1 = history (snd (m w)) ++ [Escaped e]) ->
             timer_queue w1 = timer_queue (snd (m w)) ->
             (exists l, history w1 = history w ++ l /\ quiet l) /\
             (forall h op, timer_queue w !! h = Some op -> timer_queue w1 !! h = Some op)).
  { intros m w1 [(l & Hl & Hquiet) Hq] Hh Hq1. rewrite Hq1. split; [|exact Hq].
    destruct Hh as [->|[e ->]]; [eauto|].
    exists (l ++ [Escaped e]). rewrite Hl, app_assoc. split; [reflexivity|].
    intros h. rewrite entries_snoc, Hquiet. reflexivity. }
  assert (Huser : forall m : M unit,
             (history (user_call m w) = history (snd (m w)) \/
              exists e, history (user_call m w) = history (snd (m w)) ++ [Escaped e]) /\
             timer_queue (user_call m w) = timer_queue (snd (m w))).
  { intros m. unfold user_call. destruct (m w) as [[x|e] w1]; cbn; eauto. }
  assert (Hhandler : forall (m : M unit) h k,
             history (handler_call m h k w) = history (snd (m w)) /\
             timer_queue (handler_call m h k w) = timer_queue (snd (m w))).
  { intros m h k. unfold handler_call. destruct (m w) as [[x|e] w1]; cbn; eauto. }
  destruct ev as [dt|A R i d cb a|T A R i d mf inst a|h e| | | |].
  - intros [_ ->]%elapse_inv. right; right. cbn. auto.
  - intros [_ ->]%call_inv. right; right.
    destruct (Huser (ScheduleTimer i d cb a)) as [Hh Hq].
    apply (Happ (ScheduleTimer i d cb a)); auto.
    apply ScheduleTimer_quiet, Hc.
  - intros [_ ->]%call_inv. right; right.
    destruct (Huser (ScheduleTimer_member i d mf inst a)) as [Hh Hq].
    apply (Happ (ScheduleTimer_member i d mf inst a)); auto.
    apply ScheduleTimer_quiet, Hc.
  - intros (op & _ & Hq & _ & _ & ->)%complete_inv. left.
    exists h, e, op. cbn. auto.
  - intros (h & p & _ & ->)%service_work_inv. right; right.
    destruct p as [r|e|os text k|A R' i d cb a k|T A R' i d mf inst a k]; cbn [work].
    + cbn. split; [|auto]. apply Hone. reflexivity.
    + destruct e; cbn; (split; [|auto]); apply Hone; reflexivity.
    + destruct os; cbn; auto.
    + destruct (Hhandler (ScheduleTimer i d cb a) h k) as [Hh Hq].
      apply (Happ (ScheduleTimer i d cb a)); auto.
      apply ScheduleTimer_quiet, Hc.
    + destruct (Hhandler (ScheduleTimer_member i d mf inst a) h k) as [Hh Hq].
      apply (Happ (ScheduleTimer_member i d mf inst a)); auto.
      apply ScheduleTimer_quiet, Hc.
  - intros (_ & _ & ->)%run_returns_inv. right; right. cbn. auto.
  - intros [_ ->]%destruct_body_inv. right; right.
    destruct (stop_throws (faults w)); cbn; auto.
  - intros (_ & _ & ->)%destruct_members_inv. right; left. cbn. auto.
Qed.

(** Every step that arms a wait is a call of [ScheduleTimer] in one of the
    four ways of [calls_ScheduleTimer], and the timer it arms has the handle
    [timers_made w]: no timer is scheduled in any other way. *)
Lemma ScheduleTimer_arms_handle {A R} (timer_id duration : Z)
    (callback : Z -> A -> prog R) (callback_args : A) (w : world) (h : nat) :
  arms h (history (snd (ScheduleTimer timer_id duration callback callback_args w)))
    <> arms h (history w) ->
  h = timers_made w.
Proof.
  rewrite ScheduleTimer_cases. cbn zeta.
  destruct (timer_ctor_throws _ _); [cbn; congruence|].
  destruct (async_wait_throws _ _); [cbn; congruence|].
  cbn. rewrite arms_snoc. cbn.
  destruct (decide (timers_made w = h)) as [<-|Hne]; [reflexivity|].
  rewrite app_nil_r. congruence.
Qed.

Lemma arming_step_is_a_call (ev : event) (w w1 : world) (h : nat) :
  step ev w = Some w1 ->
  arms h (history w1) <> arms h (history w) ->
  h = timers_made w /\
  exists (A R : Type) (timer_id duration : Z) (callback : Z -> A -> prog R)
         (callback_args : A),
    calls_ScheduleTimer timer_id duration callback callback_args w w1.
Proof.
  intros Hstep. pose proof Hstep as Hs.
  unfold step in Hs. destruct (terminated w); [discriminate|].
  assert (Huser : forall {A R} i d (cb : Z -> A -> prog R) a,
             arms h (history (user_call (ScheduleTimer i d cb a) w)) <> arms h (history w) ->
             h = timers_made w).
  { intros A R i d cb a. pose proof (ScheduleTimer_arms_handle i d cb a w h) as H.
    unfold user_call. destruct (ScheduleTimer i d cb a w) as [[x|e] w']; cbn in *;
      [exact H|]. rewrite arms_snoc. cbn. rewrite app_nil_r. exact H. }
  assert (Hhandler : forall {A R} i d (cb : Z -> A -> prog R) a h0 k,
             arms h (history (handler_call (ScheduleTimer i d cb a) h0 k w))
               <> arms h (history w) ->
             h = timers_made w).
  { intros A R i d cb a h0 k. pose proof (ScheduleTimer_arms_handle i d cb a w h) as H.
    unfold handler_call. destruct (ScheduleTimer i d cb a w) as [[x|e] w']; cbn in *;
      exact H. }
  destruct ev as [dt|A R i d cb a|T A R i d mf inst a|h' e| | | |].
  - apply elapse_inv in Hs as [_ ->]. cbn. congruence.
  - apply call_inv in Hs as [_ ->]. intros Ha. split; [eapply Huser; exact Ha|].
    exists A, R, i, d, cb, a. now apply generic_from_user.
  - apply call_inv in Hs as [_ ->]. intros Ha. split; [eapply Huser; exact Ha|].
    exists A, unit, i, d, (member_callback mf inst), a. now apply member_from_user.
  - apply complete_inv in Hs as (op & _ & _ & _ & _ & ->). cbn.
    rewrite arms_snoc. cbn. rewrite app_nil_r. congruence.
  - apply service_work_inv in Hs as (h0 & p & Hth & ->).
    destruct p as [r|e|os text k|A R' i d cb a k|T A R' i d mf inst a k]; cbn [work].
    + cbn. rewrite arms_snoc. cbn. rewrite app_nil_r. congruence.
    + destruct e; cbn; rewrite arms_snoc; cbn; rewrite app_nil_r; congruence.
    + destruct os; cbn; congruence.
    + intros Ha. split; [eapply Hhandler; exact Ha|].
      exists A, R', i, d, cb, a. eapply generic_from_handler; eassumption.
    + intros Ha. split; [eapply Hhandler; exact Ha|].
      exists A, unit, i, d, (member_callback mf inst), a.
      eapply member_from_handler; eassumption.
  - apply run_returns_inv in Hs as (_ & _ & ->). cbn. congruence.
  - apply destruct_body_inv in Hs as [_ ->].
    destruct (stop_throws (faults w)); cbn; congruence.
  - apply destruct_members_inv in Hs as (_ & _ & ->). cbn. congruence.
Qed.

(** ** Timers from the call to the completion *)

(** C1.  A timer scheduled through the generic
    [ScheduleTimer(timer_id, duration, callback, callback_args...)], from a
    user thread or from a running handler, directly or by the delegation of
    overload (2), and whose wait completes without error: the handler the service thread then executes is the call
    [callback(timer_id, callback_args...)] with the scheduled identifier and
    the scheduled arguments, and the value the callback returns is dropped,
    so that the state after the handler does not depend on it. *)
Theorem callback_receives_scheduled_arguments {A R} (env : asio_faults) (t0 : Z)
    (pre evs : list event) (timer_id duration : Z) (callback : Z -> A -> prog R)
    (callback_args : A) (w w1 w2 w3 : world) (e : error_code) :
  run pre (Scheduler env t0) = Some w ->
  calls_ScheduleTimer timer_id duration callback callback_args w w1 ->
  run evs w1 = Some w2 ->
  step (Complete (timers_made w) e) w2 = Some w3 ->
  ec_failed e = false ->
  io_service_thread_ w3 =
    InRun (Some (timers_made w, discard (callback timer_id callback_args))) /\
  forall r : R,
    callback timer_id callback_args = Return r ->
    step Work w3 = Some (record (Left (timers_made w)) (set_thread (InRun None) w3)).
Proof.
  intros Hpre Hcall Hrun Hstep He.
  assert (Hc : consistent w)
    by (eapply run_consistent; [exact Hpre|apply Scheduler_consistent]).
  destruct (scheduled_wait_completion _ _ _ _ _ _ _ _ _ _ Hc Hcall Hrun Hstep)
    as (Hth & _ & _).
  rewrite wait_handler_success in Hth by exact He.
  split; [exact Hth|].
  intros r Hr. unfold step, terminated, service_work.
  rewrite Hth, Hr. reflexivity.
Qed.


(** C2.  A timer scheduled through [ScheduleTimer], by any of the four ways
    there are (either overload, from a user thread or from a running
    handler; for overload (2) [callback] is its adapter closure), whose wait
    completes with an error code: the handler the service thread executes is the single
    statement that writes "error waiting on timer (id = <timer_id>):
    <e.message()>" to [std::cerr]; executing it adds that line and nothing
    else, and the callback is not part of it.  The handler of the timer is
    never called again, so the callback is never invoked. *)
Theorem failed_wait_logs_and_skips_callback {A R} (env : asio_faults) (t0 : Z)
    (pre evs : list event) (timer_id duration : Z) (callback : Z -> A -> prog R)
    (callback_args : A) (w w1 w2 w3 : world) (e : error_code) :
  run pre (Scheduler env t0) = Some w ->
  calls_ScheduleTimer timer_id duration callback callback_args w w1 ->
  run evs w1 = Some w2 ->
  step (Complete (timers_made w) e) w2 = Some w3 ->
  ec_failed e = true ->
  let log_line :=
    "error waiting on timer (id = " +:+ pretty timer_id +:+ "): " +:+ ec_message e in
  io_service_thread_ w3 =
    InRun (Some (timers_made w, Write std_cerr log_line (Return tt))) /\
  (exists w5,
      run [Work; Work] w3 = Some w5 /\
      cerr w5 = cerr w2 ++ [log_line] /\
      cout w5 = cout w2 /\
      io_service_thread_ w5 = InRun None) /\
  (forall evs' w',
      run evs' w3 = Some w' ->
      entries (timers_made w) (history w') =
        [(e, now w2, Write std_cerr log_line (Return tt))]).
Proof.
  intros Hpre Hcall Hrun Hstep He log_line.
  assert (Hc : consistent w) by (eapply reachable_consistent; eassumption).
  assert (Hc2 : consistent w2).
  { eapply run_consistent; [exact Hrun|].
    eapply calls_ScheduleTimer_consistent; eassumption. }
  destruct (scheduled_wait_completion _ _ _ _ _ _ _ _ _ _ Hc Hcall Hrun Hstep)
    as (Hth & _ & _).
  rewrite wait_handler_failure in Hth by exact He.
  change (waiting_error timer_id e) with log_line in Hth.
  split; [exact Hth|]. split.
  - assert (Hs : step (Complete (timers_made w) e) w2 = Some w3) by exact Hstep.
    unfold step in Hs. destruct (terminated w2); [discriminate|].
    apply complete_inv in Hs as (op & _ & _ & _ & _ & Hw3).
    eexists. split.
    + cbn [run]. unfold step at 1, terminated, service_work. rewrite Hth. cbn [work].
      unfold step, terminated, service_work. cbn. reflexivity.
    + subst w3. cbn. auto.
  - intros evs' w' Hrun'.
    destruct (complete_entries _ _ _ _ Hc2 Hstep) as (op & Hq & Hent & Hq3 & Hlt).
    destruct (run_entries_off_queue _ _ _ _ Hlt Hq3 Hrun') as [_ ->].
    rewrite Hent. subst log_line.
    assert (Hop : io_service_thread_ w3 =
                  InRun (Some (timers_made w, op_handler op e))).
    { unfold step in Hstep. destruct (terminated w2); [discriminate|].
      apply complete_inv in Hstep as (op' & _ & Hq' & _ & _ & ->).
      cbn. congruence. }
    rewrite Hth in Hop. congruence.
Qed.


(** C9.  A timer scheduled with delay [duration] (milliseconds) at clock
    [now w], by any of the four ways there are (either overload, from a user
    thread or from a running handler; for overload (2) [callback] is its
    adapter closure): while less than [duration] has elapsed its wait cannot complete
    without error, and whenever it does complete without error, so that the
    callback is called, at least [duration] has elapsed since the call of
    [ScheduleTimer]. *)
Theorem callback_not_before_delay {A R} (env : asio_faults) (t0 : Z)
    (pre evs : list event) (timer_id duration : Z) (callback : Z -> A -> prog R)
    (callback_args : A) (w w1 w2 : world) (e : error_code) :
  run pre (Scheduler env t0) = Some w ->
  calls_ScheduleTimer timer_id duration callback callback_args w w1 ->
  run evs w1 = Some w2 ->
  ec_failed e = false ->
  (now w2 - now w < duration -> step (Complete (timers_made w) e) w2 = None) /\
  (forall w3,
      step (Complete (timers_made w) e) w2 = Some w3 ->
      io_service_thread_ w3 =
        InRun (Some (timers_made w, discard (callback timer_id callback_args))) /\
      duration <= now w3 - now w).
Proof.
  intros Hpre Hcall Hrun He.
  assert (Hc : consistent w) by (eapply reachable_consistent; eassumption).
  assert (Hall : forall w3,
             step (Complete (timers_made w) e) w2 = Some w3 ->
             io_service_thread_ w3 =
               InRun (Some (timers_made w, discard (callback timer_id callback_args))) /\
             now w3 = now w2 /\ duration <= now w2 - now w).
  { intros w3 Hstep.
    destruct (scheduled_wait_completion _ _ _ _ _ _ _ _ _ _ Hc Hcall Hrun Hstep)
      as (Hth & Hnow & Ht).
    rewrite wait_handler_success in Hth by exact He.
    specialize (Ht He). repeat split; [exact Hth|exact Hnow|lia]. }
  split.
  - intros Hearly.
    destruct (step (Complete (timers_made w) e) w2) as [w3|] eqn:Hstep; [|reflexivity].
    destruct (Hall w3 eq_refl) as (_ & _ & Ht). lia.
  - intros w3 Hstep. destruct (Hall w3 Hstep) as (Hth & Hnow & Ht).
    split; [exact Hth|]. rewrite Hnow. exact Ht.
Qed.


Lemma complete_enabled (h : nat) (op : wait_op) (e : error_code) (w : world) :
  io_service_thread_ w = InRun None ->
  stopped w = false ->
  timer_queue w !! h = Some op ->
  may_complete op e w = true ->
  step (Complete h e) w =
  Some (record (Entered h e (now w) (op_handler op e))
          (set_thread (InRun (Some (h, op_handler op e)))
             (set_queue (delete h (timer_queue w)) w))).
Proof.
  intros Hth Hs Hq Hm. unfold step, terminated, complete.
  rewrite Hth, Hq, Hs, Hm. reflexivity.
Qed.








(** ** Exceptions in [ScheduleTimer] *)

(** The call returns normally unless the construction of the timer throws;
    a throwing [async_wait] is caught and logged, and nothing is queued. *)
Lemma ScheduleTimer_outcome {A R} (timer_id duration : Z) (callback : Z -> A -> prog R)
    (callback_args : A) (w : world) :
  fst (ScheduleTimer timer_id duration callback callback_args w) =
  match timer_ctor_throws (faults w) (timers_made w) with
  | Some what => Raised (std_exception what)
  | None => Normal tt
  end.
Proof.
  rewrite ScheduleTimer_cases. cbn zeta.
  destruct (timer_ctor_throws _ _); [reflexivity|].
  destruct (async_wait_throws _ _); reflexivity.
Qed.

Lemma ScheduleTimer_arming_failure_logged {A R} (timer_id duration : Z)
    (callback : Z -> A -> prog R) (callback_args : A) (w : world) (what : string) :
  timer_ctor_throws (faults w) (timers_made w) = None ->
  async_wait_throws (faults w) (timers_made w) = Some what ->
  let r := ScheduleTimer timer_id duration callback callback_args w in
  fst r = Normal tt /\
  cerr (snd r) = cerr w ++ [scheduling_error timer_id what] /\
  timer_queue (snd r) = timer_queue w /\
  history (snd r) = history w.
Proof.
  intros H1 H2. rewrite ScheduleTimer_cases. cbn zeta. rewrite H1, H2. cbn. auto.
Qed.

(** C4, the failing call.  With the allocation of the timer failing, the
    exception leaves [ScheduleTimer]: line 87 of Scheduler.h is outside the
    [try] block.  Nothing is written to [std::cerr], and the user thread
    that made the call receives the exception. *)
Theorem ScheduleTimer_timer_construction_failure_escapes :
  fst (ScheduleTimer 7 100 lambda_callback 42 (Scheduler first_allocation_fails 0)) =
    Raised (std_exception "std::bad_alloc") /\
  cerr (snd (ScheduleTimer 7 100 lambda_callback 42 (Scheduler first_allocation_fails 0)))
    = [] /\
  (exists w,
      step (Call 7 100 lambda_callback 42) (Scheduler first_allocation_fails 0) = Some w /\
      history w = [Escaped (std_exception "std::bad_alloc")] /\
      cerr w = []) /\
  fst (ScheduleTimer_member 7 100 Model_OnTimer tt 5 (Scheduler first_allocation_fails 0)) =
    Raised (std_exception "std::bad_alloc").
Proof.
  split; [reflexivity|]. split; [reflexivity|]. split; [|reflexivity].
  eexists. split; [reflexivity|]. split; reflexivity.
Qed.

(** ** After the service thread has left [run()] *)

Lemma ScheduleTimer_member_unfold {T A R} (timer_id duration : Z)
    (member_function : T -> Z -> A -> prog R) (instance : T) (member_function_args : A) :
  ScheduleTimer_member timer_id duration member_function instance member_function_args =
  ScheduleTimer timer_id duration (member_callback member_function instance)
    member_function_args.
Proof. reflexivity. Qed.

Lemma run_invariant (P : world -> Prop) :
  (forall ev w w', P w -> step ev w = Some w' -> P w') ->
  forall evs w w', P w -> run evs w = Some w' -> P w'.
Proof.
  intros Hstep evs. induction evs as [|ev evs IH]; cbn; intros w w' HP.
  - now intros [= <-].
  - destruct (step ev w) as [w1|] eqn:Hs; [|discriminate].
    apply IH. eapply Hstep; eassumption.
Qed.

Lemma step_stopped (ev : event) (w w' : world) :
  consistent w -> stopped w = true -> step ev w = Some w' -> stopped w' = true.
Proof.
  intros Hc Hs. unfold step. destruct (terminated w); [discriminate|].
  destruct ev as [dt|A R i d cb a|T A R i d mf inst a|h e| | | |].
  - now intros [_ ->]%elapse_inv.
  - intros [_ ->]%call_inv.
    destruct (user_call_core (ScheduleTimer i d cb a) w) as (_ & _ & _ & _ & ->).
    destruct (ScheduleTimer_queue i d cb a w Hc) as (_ & _ & _ & -> & _). exact Hs.
  - intros [_ ->]%call_inv. rewrite ScheduleTimer_member_unfold.
    destruct (user_call_core (ScheduleTimer i d (member_callback mf inst) a) w) as (_ & _ & _ & _ & ->).
    destruct (ScheduleTimer_queue i d (member_callback mf inst) a w Hc)
      as (_ & _ & _ & -> & _). exact Hs.
  - intros (op & _ & _ & Hs' & _)%complete_inv. congruence.
  - intros (h & p & _ & ->)%service_work_inv.
    destruct p as [r|e|os text k|A R' i d cb a k|T A R' i d mf inst a k]; cbn [work].
    + exact Hs.
    + destruct e; exact Hs.
    + destruct os; exact Hs.
    + destruct (handler_call_core (ScheduleTimer i d cb a) h k w) as (_ & _ & _ & ->).
      destruct (ScheduleTimer_queue i d cb a w Hc) as (_ & _ & _ & -> & _). exact Hs.
    + rewrite ScheduleTimer_member_unfold.
      destruct (handler_call_core (ScheduleTimer i d (member_callback mf inst) a) h k w)
        as (_ & _ & _ & ->).
      destruct (ScheduleTimer_queue i d (member_callback mf inst) a w Hc)
        as (_ & _ & _ & -> & _). exact Hs.
  - now intros (_ & _ & ->)%run_returns_inv.
  - intros [_ ->]%destruct_body_inv. destruct (stop_throws (faults w)); [exact Hs|reflexivity].
  - now intros (_ & _ & ->)%destruct_members_inv.
Qed.

Lemma step_finished (ev : event) (w w' : world) :
  consistent w -> io_service_thread_ w = Finished -> step ev w = Some w' ->
  io_service_thread_ w' = Finished.
Proof.
  intros Hc Hth. unfold step. destruct (terminated w); [discriminate|].
  destruct ev as [dt|A R i d cb a|T A R i d mf inst a|h e| | | |].
  - now intros [_ ->]%elapse_inv.
  - intros [_ ->]%call_inv.
    destruct (user_call_core (ScheduleTimer i d cb a) w) as (_ & _ & _ & -> & _).
    destruct (ScheduleTimer_queue i d cb a w Hc) as (_ & _ & -> & _). exact Hth.
  - intros [_ ->]%call_inv. rewrite ScheduleTimer_member_unfold.
    destruct (user_call_core (ScheduleTimer i d (member_callback mf inst) a) w) as (_ & _ & _ & -> & _).
    destruct (ScheduleTimer_queue i d (member_callback mf inst) a w Hc)
      as (_ & _ & -> & _). exact Hth.
  - intros (op & Hth' & _)%complete_inv. congruence.
  - intros (h & p & Hth' & _)%service_work_inv. congruence.
  - intros (Hth' & _)%run_returns_inv. congruence.
  - intros [_ ->]%destruct_body_inv. destruct (stop_throws (faults w)); exact Hth.
  - now intros (_ & _ & ->)%destruct_members_inv.
Qed.

(** No handler is called by a step taken while the io_service is stopped or
    after the service thread has finished. *)
Lemma step_no_entry (ev : event) (w w' : world) (h : nat) :
  consistent w ->
  io_service_thread_ w = Finished \/ stopped w = true ->
  step ev w = Some w' ->
  entries h (history w') = entries h (history w).
Proof.
  intros Hc Hidle Hstep.
  destruct (step_summary _ _ _ Hc Hstep)
    as [(h' & e & op & -> & _)|[(_ & _ & ->)|[(l & -> & Hl) _]]].
  - unfold step in Hstep. destruct (terminated w); [discriminate|].
    apply complete_inv in Hstep as (op' & Hth & _ & Hs & _).
    destruct Hidle; congruence.
  - reflexivity.
  - unfold entries. rewrite omap_app. fold (entries h l). rewrite Hl. apply app_nil_r.
Qed.

Lemma run_finished (evs : list event) (w w' : world) :
  consistent w -> io_service_thread_ w = Finished -> run evs w = Some w' ->
  io_service_thread_ w' = Finished /\
  forall h, entries h (history w') = entries h (history w).
Proof.
  intros Hc Hth Hrun.
  pose (P := fun w1 => consistent w1 /\ io_service_thread_ w1 = Finished /\
                       forall h, entries h (history w1) = entries h (history w)).
  assert (HP : P w') ; [|destruct HP as (_ & ? & ?); auto].
  apply (run_invariant P) with (evs := evs) (w := w); [|unfold P; auto|exact Hrun].
  intros ev w1 w2 (Hc1 & Hth1 & He1) Hstep. unfold P. split; [|split].
  - eapply step_consistent; eassumption.
  - eapply step_finished; eassumption.
  - intros h. rewrite <- He1. eapply step_no_entry; eauto.
Qed.

Lemma run_stopped (evs : list event) (w w' : world) :
  consistent w -> stopped w = true -> run evs w = Some w' ->
  stopped w' = true /\
  forall h, entries h (history w') = entries h (history w).
Proof.
  intros Hc Hs Hrun.
  pose (P := fun w1 => consistent w1 /\ stopped w1 = true /\
                       forall h, entries h (history w1) = entries h (history w)).
  assert (HP : P w') ; [|destruct HP as (_ & ? & ?); auto].
  apply (run_invariant P) with (evs := evs) (w := w); [|unfold P; auto|exact Hrun].
  intros ev w1 w2 (Hc1 & Hs1 & He1) Hstep. unfold P. split; [|split].
  - eapply step_consistent; eassumption.
  - eapply step_stopped; eassumption.
  - intros h. rewrite <- He1. eapply step_no_entry; eauto.
Qed.

(** C5, as stated, fails: an exception that leaves a handler is caught by
    [Service()], which logs it and returns, so that the thread ends.  Timer
    1 below is due and still queued, and its wait can no longer complete,
    whatever time passes.  An exception that is not a [std::exception] is
    not caught at all: nothing is logged and the process terminates. *)
Lemma reactor_ends_at_first_exception :
  let crashed :=
    [Call 1 1000 throwing_callback "boom"; Call 2 1000 lambda_callback 42;
     Elapse 1000; Complete 0%nat ec_success; Work] in
  let aborted :=
    [Call 1 1000 throwing_int_callback tt; Elapse 1000; Complete 0%nat ec_success;
     Work] in
  (io_service_thread_ <$> run crashed (Scheduler no_faults 0) = Some Finished /\
   cerr <$> run crashed (Scheduler no_faults 0) =
     Some ["exception in service thread: boom"] /\
   now <$> run crashed (Scheduler no_faults 0) = Some 1000 /\
   (run crashed (Scheduler no_faults 0)
      ≫= λ w, op_expiry <$> timer_queue w !! 1%nat) = Some 1000 /\
   run (crashed ++ [Complete 1%nat ec_success]) (Scheduler no_faults 0) = None /\
   run (crashed ++ [Elapse 5000; Complete 1%nat ec_success]) (Scheduler no_faults 0)
     = None) /\
  (io_service_thread_ <$> run aborted (Scheduler no_faults 0) = Some Terminated /\
   cerr <$> run aborted (Scheduler no_faults 0) = Some []).
Proof. vm_compute. repeat split. Qed.

(** C5, amended.  A [std::exception] that leaves a handler, thrown by the
    callback or by a call it makes, is caught in [Service()] and reported on
    [std::cerr] with its [what()].  No caller of the scheduler sees it.  It
    ends the service thread: [Service()] returns, and from then on no
    handler of any timer is called. *)
Theorem std_exception_is_logged_and_ends_service (env : asio_faults) (t0 : Z)
    (pre : list event) (w : world) (h : nat) (what : string) :
  run pre (Scheduler env t0) = Some w ->
  io_service_thread_ w = InRun (Some (h, Throw (std_exception what))) ->
  exists w',
    step Work w = Some w' /\
    cerr w' = cerr w ++ ["exception in service thread: " +:+ what] /\
    history w' = history w ++ [Left h] /\
    io_service_thread_ w' = Finished /\
    forall evs w'',
      run evs w' = Some w'' ->
      io_service_thread_ w'' = Finished /\
      forall h', entries h' (history w'') = entries h' (history w').
Proof.
  intros Hpre Hth.
  pose proof (reachable_consistent _ _ _ _ Hpre) as Hc.
  assert (Hstep : step Work w =
                  Some (Service_catch (std_exception what) (record (Left h) w))).
  { unfold step, terminated, service_work. rewrite Hth. reflexivity. }
  eexists. split; [exact Hstep|].
  split; [reflexivity|]. split; [reflexivity|]. split; [reflexivity|].
  intros evs w'' Hrun.
  eapply run_finished; [|reflexivity|exact Hrun].
  eapply step_consistent; [exact Hstep|exact Hc].
Qed.


(** ** The two overloads *)

Lemma discard_idempotent {R} (p : prog R) : discard (discard p) = discard p.
Proof. induction p; cbn; congruence. Qed.

Lemma member_handler_is_bound_method_handler {T A R} (timer_id : Z)
    (member_function : T -> Z -> A -> prog R) (instance : T) (args : A) :
  wait_handler timer_id (member_callback member_function instance) args =
  bound_method_handler timer_id member_function instance args.
Proof.
  extensionality e. unfold wait_handler, bound_method_handler, member_callback.
  destruct (ec_failed e); [reflexivity|apply discard_idempotent].
Qed.

(** C6.  Overload (2) is overload (1) applied to the adapter closure: the
    same function of the state, and the same step when a user thread calls
    it.  The handler it registers calls [member_function] on [instance] with
    [(timer_id, args...)] when the wait completes without error, and logs
    the error otherwise; with that handler written out directly, as the
    specification describes the bound-method form, the result is the same
    function again. *)
Theorem member_overload_is_generic_with_adapter {T A R} (timer_id duration : Z)
    (member_function : T -> Z -> A -> prog R) (instance : T) (args : A) :
  ScheduleTimer_member timer_id duration member_function instance args =
    ScheduleTimer timer_id duration (member_callback member_function instance) args /\
  (forall e : error_code,
      wait_handler timer_id (member_callback member_function instance) args e =
      if ec_failed e then Write std_cerr (waiting_error timer_id e) (Return tt)
      else discard (member_function instance timer_id args)) /\
  ScheduleTimer_member timer_id duration member_function instance args =
    ScheduleTimer_bound_method timer_id duration member_function instance args /\
  (forall w : world,
      step (CallMember timer_id duration member_function instance args) w =
      step (Call timer_id duration (member_callback member_function instance) args) w).
Proof.
  split; [reflexivity|]. split; [|split; [|reflexivity]].
  - intros e. rewrite member_handler_is_bound_method_handler. reflexivity.
  - unfold ScheduleTimer_member, ScheduleTimer, ScheduleTimer_bound_method.
    cbv zeta. rewrite member_handler_is_bound_method_handler. reflexivity.
Qed.

(** ** Destruction *)

Lemma ScheduleTimer_phase {A R} (timer_id duration : Z) (callback : Z -> A -> prog R)
    (callback_args : A) (w : world) :
  phase (snd (ScheduleTimer timer_id duration callback callback_args w)) = phase w.
Proof.
  rewrite ScheduleTimer_cases. cbn zeta.
  destruct (timer_ctor_throws _ _); [reflexivity|].
  destruct (async_wait_throws _ _); reflexivity.
Qed.

Lemma user_call_phase (m : M unit) (w : world) :
  phase (user_call m w) = phase (snd (m w)).
Proof. unfold user_call. now destruct (m w) as [[x|e] w']. Qed.

Lemma handler_call_phase (m : M unit) (h : nat) (k : prog unit) (w : world) :
  phase (handler_call m h k w) = phase (snd (m w)).
Proof. unfold handler_call. now destruct (m w) as [[x|e] w']. Qed.

Lemma work_phase (h : nat) (p : prog unit) (w : world) : phase (work h p w) = phase w.
Proof.
  destruct p as [r|e|os text k|A R' i d cb a k|T A R' i d mf inst a k]; cbn [work].
  - reflexivity.
  - now destruct e.
  - now destruct os.
  - now rewrite handler_call_phase, ScheduleTimer_phase.
  - now rewrite handler_call_phase, ScheduleTimer_member_unfold, ScheduleTimer_phase.
Qed.

(** The members are destroyed only once the thread has finished, and the
    waits still queued go with the io_service. *)
Lemma step_destroyed_joined (ev : event) (w w' : world) :
  (phase w = Destroyed -> io_service_thread_ w = Finished /\ timer_queue w = ∅) ->
  step ev w = Some w' ->
  phase w' = Destroyed -> io_service_thread_ w' = Finished /\ timer_queue w' = ∅.
Proof.
  intros Hd. unfold step. destruct (terminated w); [discriminate|].
  destruct ev as [dt|A R i d cb a|T A R i d mf inst a|h e| | | |].
  - intros [_ ->]%elapse_inv. exact Hd.
  - intros [Hp ->]%call_inv. rewrite user_call_phase, ScheduleTimer_phase. congruence.
  - intros [Hp ->]%call_inv.
    rewrite user_call_phase, ScheduleTimer_member_unfold, ScheduleTimer_phase. congruence.
  - intros (op & Hth & _ & _ & _ & ->)%complete_inv. cbn. intros Hp.
    destruct (Hd Hp). congruence.
  - intros (h & p & Hth & ->)%service_work_inv. rewrite work_phase. intros Hp.
    destruct (Hd Hp). congruence.
  - intros (Hth & _ & ->)%run_returns_inv. cbn. intros Hp. destruct (Hd Hp). congruence.
  - intros [Hp ->]%destruct_body_inv. cbn. discriminate.
  - intros (Hp & Hth & ->)%destruct_members_inv. cbn. auto.
Qed.

Lemma run_destroyed_joined (evs : list event) (w w' : world) :
  phase w <> Destroyed ->
  run evs w = Some w' ->
  phase w' = Destroyed -> io_service_thread_ w' = Finished /\ timer_queue w' = ∅.
Proof.
  intros Hp Hrun.
  apply (run_invariant
           (fun w1 => phase w1 = Destroyed ->
                      io_service_thread_ w1 = Finished /\ timer_queue w1 = ∅))
    with (evs := evs) (w := w); [|tauto|exact Hrun].
  intros ev w1 w2 H1 Hstep. eapply step_destroyed_joined; eassumption.
Qed.

(** C7, as stated, fails when [stop()] throws.  The destructor logs the
    exception and goes on to the join, but the io_service was not stopped:
    the wait of timer 0, pending when the destruction began, still
    completes and its callback runs while the destructor is waiting;
    [run()] cannot return, and the join cannot complete. *)
Lemma failed_stop_leaves_pending_timers_running :
  let begun := [Call 1 0 lambda_callback 42; Destruct] in
  let fired := begun ++ [Complete 0%nat ec_success; Work; Work] in
  phase <$> run begun (Scheduler stop_fails 0) = Some Destructing /\
  cerr <$> run begun (Scheduler stop_fails 0) =
    Some ["error stopping io_service_: stop failed"] /\
  cout <$> run begun (Scheduler stop_fails 0) = Some [] /\
  phase <$> run fired (Scheduler stop_fails 0) = Some Destructing /\
  cout <$> run fired (Scheduler stop_fails 0) =
    Some ["lambda callback for timer 1 expired. int value: 42"] /\
  run (begun ++ [RunReturns]) (Scheduler stop_fails 0) = None /\
  run (begun ++ [Join]) (Scheduler stop_fails 0) = None /\
  run (fired ++ [RunReturns]) (Scheduler stop_fails 0) = None /\
  run (fired ++ [Join]) (Scheduler stop_fails 0) = None.
Proof. vm_compute. repeat split. Qed.

(** C7, amended.  On a constructed scheduler of a running process the body
    of [~Scheduler()] always completes: it calls [stop()], and when [stop()]
    throws it writes "error stopping io_service_: <what>" to [std::cerr] and
    lets nothing escape.  The members are destroyed only by the join, which
    needs the thread to have finished, so that a destroyed scheduler has no
    service thread left, and the waits still queued are dropped with the
    io_service.  When [stop()] has succeeded the io_service is stopped: in
    every continuation no handler is called, so that the pending callbacks
    are abandoned, not invoked, and as soon as the thread is idle [run()]
    returns, [Service()] ends the thread, and the join completes the
    destruction. *)
Theorem destructor_stops_joins_and_abandons (env : asio_faults) (t0 : Z)
    (pre : list event) (w : world) :
  run pre (Scheduler env t0) = Some w ->
  phase w = Alive ->
  terminated w = false ->
  exists w1,
    step Destruct w = Some w1 /\
    phase w1 = Destructing /\
    io_service_thread_ w1 = io_service_thread_ w /\
    timer_queue w1 = timer_queue w /\
    history w1 = history w /\
    match stop_throws (faults w) with
    | Some what =>
        cerr w1 = cerr w ++ ["error stopping io_service_: " +:+ what]
    | None => cerr w1 = cerr w /\ stopped w1 = true
    end /\
    forall evs w2,
      run evs w1 = Some w2 ->
      (forall w3, step Join w2 = Some w3 ->
                  phase w2 = Destructing /\ io_service_thread_ w2 = Finished) /\
      (phase w2 = Destroyed ->
       io_service_thread_ w2 = Finished /\ timer_queue w2 = ∅) /\
      (phase w2 = Destructing -> io_service_thread_ w2 = Finished ->
       exists w3, step Join w2 = Some w3 /\ phase w3 = Destroyed /\
                  io_service_thread_ w3 = Finished /\ history w3 = history w2) /\
      (stop_throws (faults w) = None ->
       (forall h, entries h (history w2) = entries h (history w)) /\
       (phase w2 = Destructing -> io_service_thread_ w2 = InRun None ->
        exists w3 w4,
          step RunReturns w2 = Some w3 /\ io_service_thread_ w3 = Finished /\
          step Join w3 = Some w4 /\ phase w4 = Destroyed /\
          timer_queue w4 = ∅ /\ history w4 = history w2)).
Proof.
  intros Hpre Hp Ht.
  pose proof (reachable_consistent _ _ _ _ Hpre) as Hc.
  assert (Hstep : step Destruct w =
                  Some (set_phase Destructing
                          match stop_throws (faults w) with
                          | Some what => write_line std_cerr (stopping_error what) w
                          | None => set_stopped true w
                          end)).
  { unfold step, destruct_body. rewrite Ht, Hp, Scheduler_destructor_cases.
    destruct (stop_throws (faults w)); reflexivity. }
  eexists. split; [exact Hstep|].
  pose proof (step_consistent _ _ _ Hstep Hc) as Hc1.
  split; [reflexivity|].
  split; [destruct (stop_throws (faults w)); reflexivity|].
  split; [destruct (stop_throws (faults w)); reflexivity|].
  split; [destruct (stop_throws (faults w)); reflexivity|].
  split; [destruct (stop_throws (faults w)); cbn; auto|].
  intros evs w2 Hrun. split; [|split; [|split]].
  - intros w3 Hjoin. unfold step in Hjoin. destruct (terminated w2); [discriminate|].
    apply destruct_members_inv in Hjoin as (? & ? & _). auto.
  - eapply run_destroyed_joined; [|exact Hrun]. cbn. discriminate.
  - intros Hp2 Hth2. eexists. split.
    + unfold step, terminated, destruct_members. rewrite Hth2, Hp2. reflexivity.
    + cbn. auto.
  - intros Hs.
    assert (Hs1 : stopped
                    (set_phase Destructing
                       match stop_throws (faults w) with
                       | Some what => write_line std_cerr (stopping_error what) w
                       | None => set_stopped true w
                       end) = true) by (rewrite Hs; reflexivity).
    destruct (run_stopped _ _ _ Hc1 Hs1 Hrun) as [Hs2 He]. split.
    + intros h. rewrite He. rewrite Hs. reflexivity.
    + intros Hp2 Hth2.
      exists (Service_return w2),
             (set_phase Destroyed (set_queue ∅ (set_work false (Service_return w2)))).
      split; [|split; [reflexivity|split; [|cbn; auto]]].
      * unfold step, terminated, run_returns, run_may_return.
        rewrite Hth2, Hs2. reflexivity.
      * unfold step, terminated, destruct_members. cbn. rewrite Hp2. reflexivity.
Qed.

(** ** One handler at a time *)

Lemma executing_snoc (l : list ghost) (g : ghost) :
  executing (l ++ [g]) = track (executing l) g.
Proof. unfold executing. now rewrite fold_left_app. Qed.

Lemma scan_failed (l : list ghost) : fold_left track l None = None.
Proof. induction l as [|g l IH]; [reflexivity|exact IH]. Qed.

Lemma scan_open (l : list ghost) (h : nat) :
  In (Left h) l \/
  fold_left track l (Some (Some h)) = None \/
  fold_left track l (Some (Some h)) = Some (Some h).
Proof.
  induction l as [|g l IH]; [auto|].
  destruct g as [h' x f|h' e t p|h'|e]; cbn.
  - destruct IH as [IH|IH]; auto.
  - right; left. apply scan_failed.
  - destruct (decide (h = h')) as [->|Hne]; [auto|].
    right; left. apply scan_failed.
  - destruct IH as [IH|IH]; auto.
Qed.

(** A history that scans without failure has no two handlers open at once:
    between two calls of handlers, the first handler was left. *)
Lemma executing_no_overlap (l1 l2 l3 : list ghost) h1 e1 t1 p1 h2 e2 t2 p2 o :
  executing (l1 ++ Entered h1 e1 t1 p1 :: l2 ++ Entered h2 e2 t2 p2 :: l3) = Some o ->
  In (Left h1) l2.
Proof.
  unfold executing. rewrite fold_left_app. cbn [fold_left].
  rewrite fold_left_app. cbn [fold_left].
  destruct (fold_left track l1 (Some None)) as [[h0|]|]; cbn [track].
  - rewrite scan_failed. cbn. rewrite scan_failed. discriminate.
  - destruct (scan_open l2 h1) as [Hin|[->| ->]]; [auto| |];
      cbn; rewrite scan_failed; discriminate.
  - rewrite scan_failed. cbn. rewrite scan_failed. discriminate.
Qed.

Lemma ScheduleTimer_history {A R} (timer_id duration : Z) (callback : Z -> A -> prog R)
    (callback_args : A) (w : world) :
  let w' := snd (ScheduleTimer timer_id duration callback callback_args w) in
  io_service_thread_ w' = io_service_thread_ w /\
  (history w' = history w \/ exists h x f, history w' = history w ++ [Armed h x f]).
Proof.
  rewrite ScheduleTimer_cases. cbn zeta.
  destruct (timer_ctor_throws _ _); [cbn; auto|].
  destruct (async_wait_throws _ _); cbn; eauto 6.
Qed.

Lemma step_executing (ev : event) (w w' : world) :
  executing (history w) = Some (current w) ->
  step ev w = Some w' ->
  executing (history w') = Some (current w').
Proof.
  intros Hex. unfold step. destruct (terminated w); [discriminate|].
  assert (Hsched : forall {A R} i d (cb : Z -> A -> prog R) a o,
             executing (history w) = Some o ->
             executing (history (snd (ScheduleTimer i d cb a w))) = Some o).
  { intros A R i d cb a o Ho.
    destruct (ScheduleTimer_history i d cb a w) as [_ [->|(h & x & f & ->)]]; [exact Ho|].
    rewrite executing_snoc, Ho. now destruct o. }
  assert (Huser : forall (m : M unit),
             executing (history (snd (m w))) = Some (current w) ->
             io_service_thread_ (snd (m w)) = io_service_thread_ w ->
             executing (history (user_call m w)) = Some (current (user_call m w))).
  { intros m Hm Hth. unfold user_call, current in *.
    destruct (m w) as [[x|e] w1]; cbn in *; rewrite ?Hth; [exact Hm|].
    rewrite executing_snoc, Hm.
    destruct (io_service_thread_ w) as [[[h p]|]| |]; reflexivity. }
  assert (Hhandler : forall (m : M unit) h k,
             executing (history (snd (m w))) = Some (Some h) ->
             executing (history (handler_call m h k w)) =
             Some (current (handler_call m h k w))).
  { intros m h k Hm. unfold handler_call, current.
    destruct (m w) as [[x|e] w1]; cbn in *; exact Hm. }
  destruct ev as [dt|A R i d cb a|T A R i d mf inst a|h e| | | |].
  - intros [_ ->]%elapse_inv. exact Hex.
  - intros [_ ->]%call_inv. apply Huser; [now apply Hsched|].
    apply ScheduleTimer_history.
  - intros [_ ->]%call_inv. rewrite ScheduleTimer_member_unfold.
    apply Huser; [now apply Hsched|]. apply ScheduleTimer_history.
  - intros (op & Hth & _ & _ & _ & ->)%complete_inv.
    unfold current in *. rewrite Hth in Hex. cbn.
    rewrite executing_snoc, Hex. reflexivity.
  - intros (h & p & Hth & ->)%service_work_inv.
    unfold current in Hex. rewrite Hth in Hex.
    destruct p as [r|e|os text k|A R' i d cb a k|T A R' i d mf inst a k]; cbn [work].
    + cbn. rewrite executing_snoc, Hex. cbn. now rewrite decide_True.
    + destruct e; cbn; rewrite executing_snoc, Hex; cbn; now rewrite decide_True.
    + destruct os; cbn; exact Hex.
    + apply Hhandler. now apply Hsched.
    + rewrite ScheduleTimer_member_unfold. apply Hhandler. now apply Hsched.
  - intros (Hth & _ & ->)%run_returns_inv.
    unfold current in *. rewrite Hth in Hex. exact Hex.
  - intros [_ ->]%destruct_body_inv. destruct (stop_throws (faults w)); exact Hex.
  - intros (_ & Hth & ->)%destruct_members_inv. exact Hex.
Qed.

(** C8.  On a constructed scheduler, in any execution, handlers run one at
    a time: the only handler open in the history is the one the single
    service thread is executing, and between the calls of any two handlers
    the first one has returned or thrown.  How close the two expiries are
    plays no part. *)
Theorem handlers_never_overlap (env : asio_faults) (t0 : Z) (evs : list event)
    (w : world) :
  run evs (Scheduler env t0) = Some w ->
  executing (history w) = Some (current w) /\
  forall l1 l2 l3 h1 e1 t1 p1 h2 e2 t2 p2,
    history w = l1 ++ Entered h1 e1 t1 p1 :: l2 ++ Entered h2 e2 t2 p2 :: l3 ->
    In (Left h1) l2.
Proof.
  intros Hrun.
  assert (Hex : executing (history w) = Some (current w)).
  { apply (run_invariant (fun w1 => executing (history w1) = Some (current w1)))
      with (evs := evs) (w := Scheduler env t0); [|reflexivity|exact Hrun].
    intros ev w1 w2 H1 Hstep. eapply step_executing; eassumption. }
  split; [exact Hex|].
  intros l1 l2 l3 h1 e1 t1 p1 h2 e2 t2 p2 Hh. rewrite Hh in Hex.
  eapply executing_no_overlap. exact Hex.
Qed.


(** ** The theorems at concrete executions *)

Lemma callback_receives_scheduled_arguments_witness :
  let w := after no_faults 0 [] in
  let w1 := after no_faults 0 [Call 1 2000 answering_callback 42] in
  let w2 := after no_faults 0 [Call 1 2000 answering_callback 42; Elapse 2000] in
  let w3 := after no_faults 0 [Call 1 2000 answering_callback 42; Elapse 2000;
                               Complete 0%nat ec_success] in
  run [] (Scheduler no_faults 0) = Some w /\
  calls_ScheduleTimer 1 2000 answering_callback 42 w w1 /\
  run [Elapse 2000] w1 = Some w2 /\
  step (Complete (timers_made w) ec_success) w2 = Some w3 /\
  ec_failed ec_success = false /\
  io_service_thread_ w3 =
    InRun (Some (timers_made w, discard (answering_callback 1 42))).
Proof.
  intros w w1 w2 w3.
  assert (H1 : run [] (Scheduler no_faults 0) = Some w) by (vm_compute; reflexivity).
  assert (H2 : calls_ScheduleTimer 1 2000 answering_callback 42 w w1)
    by (apply generic_from_user; vm_compute; reflexivity).
  assert (H3 : run [Elapse 2000] w1 = Some w2) by (vm_compute; reflexivity).
  assert (H4 : step (Complete (timers_made w) ec_success) w2 = Some w3)
    by (vm_compute; reflexivity).
  assert (H5 : ec_failed ec_success = false) by reflexivity.
  refine (conj H1 (conj H2 (conj H3 (conj H4 (conj H5 _))))).
  exact (proj1 (callback_receives_scheduled_arguments no_faults 0 [] [Elapse 2000]
                  1 2000 answering_callback 42 w w1 w2 w3 ec_success H1 H2 H3 H4 H5)).
Defined.

Lemma failed_wait_logs_and_skips_callback_witness :
  let canceled := {| ec_value := 125; ec_message := "Operation canceled" |} in
  let pre := [Call 1 1000 chaining_member_callback 500; Elapse 1000;
              Complete 0%nat ec_success] in
  let w := after no_faults 0 pre in
  let w1 := after no_faults 0 (pre ++ [Work]) in
  let w2 := after no_faults 0 (pre ++ [Work; Work; Elapse 100]) in
  let w3 := after no_faults 0 (pre ++ [Work; Work; Elapse 100; Complete 1%nat canceled]) in
  run pre (Scheduler no_faults 0) = Some w /\
  calls_ScheduleTimer 2 500 (member_callback Model_fail tt) "late" w w1 /\
  run [Work; Elapse 100] w1 = Some w2 /\
  step (Complete (timers_made w) canceled) w2 = Some w3 /\
  ec_failed canceled = true /\
  io_service_thread_ w3 =
    InRun (Some (timers_made w,
                 Write std_cerr
                   ("error waiting on timer (id = " +:+ pretty 2 +:+ "): " +:+
                    ec_message canceled)
                   (Return tt))).
Proof.
  intros canceled pre w w1 w2 w3.
  assert (H1 : run pre (Scheduler no_faults 0) = Some w) by (vm_compute; reflexivity).
  assert (H2 : calls_ScheduleTimer 2 500 (member_callback Model_fail tt) "late" w w1).
  { apply (member_from_handler 2 500 Model_fail tt "late" w w1 0%nat (Return tt));
      vm_compute; reflexivity. }
  assert (H3 : run [Work; Elapse 100] w1 = Some w2) by (vm_compute; reflexivity).
  assert (H4 : step (Complete (timers_made w) canceled) w2 = Some w3)
    by (vm_compute; reflexivity).
  assert (H5 : ec_failed canceled = true) by reflexivity.
  refine (conj H1 (conj H2 (conj H3 (conj H4 (conj H5 _))))).
  exact (proj1 (failed_wait_logs_and_skips_callback no_faults 0 pre [Work; Elapse 100]
                  2 500 (member_callback Model_fail tt) "late" w w1 w2 w3 canceled
                  H1 H2 H3 H4 H5)).
Defined.

Lemma callback_not_before_delay_witness :
  let pre := [Call 1 1000 chaining_member_callback 500; Elapse 1000;
              Complete 0%nat ec_success] in
  let w := after no_faults 0 pre in
  let w1 := after no_faults 0 (pre ++ [Work]) in
  let w2 := after no_faults 0 (pre ++ [Work; Work; Elapse 499]) in
  run pre (Scheduler no_faults 0) = Some w /\
  calls_ScheduleTimer 2 500 (member_callback Model_fail tt) "late" w w1 /\
  run [Work; Elapse 499] w1 = Some w2 /\
  ec_failed ec_success = false /\
  now w2 - now w < 500 /\
  step (Complete (timers_made w) ec_success) w2 = None.
Proof.
  intros pre w w1 w2.
  assert (H1 : run pre (Scheduler no_faults 0) = Some w) by (vm_compute; reflexivity).
  assert (H2 : calls_ScheduleTimer 2 500 (member_callback Model_fail tt) "late" w w1).
  { apply (member_from_handler 2 500 Model_fail tt "late" w w1 0%nat (Return tt));
      vm_compute; reflexivity. }
  assert (H3 : run [Work; Elapse 499] w1 = Some w2) by (vm_compute; reflexivity).
  assert (H4 : ec_failed ec_success = false) by reflexivity.
  assert (H5 : now w2 - now w < 500) by (vm_compute; reflexivity).
  refine (conj H1 (conj H2 (conj H3 (conj H4 (conj H5 _))))).
  exact (proj1 (callback_not_before_delay no_faults 0 pre [Work; Elapse 499]
                  2 500 (member_callback Model_fail tt) "late" w w1 w2 ec_success
                  H1 H2 H3 H4) H5).
Defined.



Lemma std_exception_is_logged_and_ends_service_witness :
  let pre := [Call 1 1000 throwing_callback "boom"; Call 2 1000 lambda_callback 42;
              Elapse 1000; Complete 0%nat ec_success] in
  let w := after no_faults 0 pre in
  run pre (Scheduler no_faults 0) = Some w /\
  io_service_thread_ w = InRun (Some (0%nat, Throw (std_exception "boom"))) /\
  exists w',
    step Work w = Some w' /\
    cerr w' = cerr w ++ ["exception in service thread: " +:+ "boom"] /\
    io_service_thread_ w' = Finished.
Proof.
  intros pre w.
  assert (H1 : run pre (Scheduler no_faults 0) = Some w) by (vm_compute; reflexivity).
  assert (H2 : io_service_thread_ w = InRun (Some (0%nat, Throw (std_exception "boom"))))
    by (vm_compute; reflexivity).
  refine (conj H1 (conj H2 _)).
  destruct (std_exception_is_logged_and_ends_service no_faults 0 pre w 0%nat "boom" H1 H2)
    as (w' & Hstep & Hcerr & _ & Hth & _).
  exact (ex_intro _ w' (conj Hstep (conj Hcerr Hth))).
Defined.

Lemma destructor_stops_joins_and_abandons_witness :
  let pre := [Call 1 2000 lambda_callback 42; Elapse 2000] in
  let w := after no_faults 0 pre in
  run pre (Scheduler no_faults 0) = Some w /\
  phase w = Alive /\
  terminated w = false /\
  exists w1,
    step Destruct w = Some w1 /\
    phase w1 = Destructing /\
    timer_queue w1 = timer_queue w.
Proof.
  intros pre w.
  assert (H1 : run pre (Scheduler no_faults 0) = Some w) by (vm_compute; reflexivity).
  assert (H2 : phase w = Alive) by (vm_compute; reflexivity).
  assert (H3 : terminated w = false) by (vm_compute; reflexivity).
  refine (conj H1 (conj H2 (conj H3 _))).
  destruct (destructor_stops_joins_and_abandons no_faults 0 pre w H1 H2 H3)
    as (w1 & Hstep & Hp & _ & Hq & _).
  exact (ex_intro _ w1 (conj Hstep (conj Hp Hq))).
Defined.

Lemma handlers_never_overlap_witness :
  let evs := [Call 1 1000 lambda_callback 42; Call 2 1000 lambda_callback 43;
              Elapse 1000; Complete 0%nat ec_success; Work;
              Call 3 0 lambda_callback 44; Work; Complete 1%nat ec_success] in
  let w := after no_faults 0 evs in
  run evs (Scheduler no_faults 0) = Some w /\
  executing (history w) = Some (current w).
Proof.
  intros evs w.
  assert (H1 : run evs (Scheduler no_faults 0) = Some w) by (vm_compute; reflexivity).
  refine (conj H1 _).
  exact (proj1 (handlers_never_overlap no_faults 0 evs w H1)).
Defined.

(** * Further properties of Scheduler.h and main.cpp *)

(** ** Failures while scheduling *)

Lemma ScheduleTimer_arming_failure {A R} (timer_id duration : Z)
    (callback : Z -> A -> prog R) (callback_args : A) (w : world) (what : string) :
  timer_ctor_throws (faults w) (timers_made w) = None ->
  async_wait_throws (faults w) (timers_made w) = Some what ->
  ScheduleTimer timer_id duration callback callback_args w =
  (Normal tt,
   write_line std_cerr (scheduling_error timer_id what)
     (set_timers_made (S (timers_made w)) w)).
Proof. intros H1 H2. rewrite ScheduleTimer_cases. cbn zeta. now rewrite H1, H2. Qed.

(** When [async_wait] throws a [std::exception], the call of [ScheduleTimer]
    (from a user thread or from a handler) returns normally, writes "error
    scheduling timer (id = <timer_id>): <what>" to [std::cerr], queues
    nothing, and in every continuation the handler made for that timer is
    never called: the action is dropped, and there is no retry. *)
Theorem arming_failure_drops_the_action {A R} (env : asio_faults) (t0 : Z)
    (pre : list event) (timer_id duration : Z) (callback : Z -> A -> prog R)
    (callback_args : A) (w w1 : world) (what : string) :
  run pre (Scheduler env t0) = Some w ->
  timer_ctor_throws (faults w) (timers_made w) = None ->
  async_wait_throws (faults w) (timers_made w) = Some what ->
  calls_ScheduleTimer timer_id duration callback callback_args w w1 ->
  cerr w1 =
    cerr w ++ ["error scheduling timer (id = " +:+ pretty timer_id +:+ "): " +:+ what] /\
  history w1 = history w /\
  timer_queue w1 = timer_queue w /\
  forall evs w2,
    run evs w1 = Some w2 ->
    timer_queue w2 !! timers_made w = None /\
    entries (timers_made w) (history w2) = [].
Proof.
  intros Hpre Hf1 Hf2 Hcall.
  pose proof (reachable_consistent _ _ _ _ Hpre) as Hc.
  destruct (calls_ScheduleTimer_queue _ _ _ _ _ _ Hc Hcall) as (Hlt & _ & _ & Hq).
  rewrite Hf1, Hf2 in Hq.
  assert (Hframe : cerr w1 = cerr w ++ [scheduling_error timer_id what] /\
                   history w1 = history w /\ timer_queue w1 = timer_queue w).
  { destruct (calls_ScheduleTimer_step _ _ _ _ _ _ Hcall) as [[->|(h & k & ->)] _].
    - unfold user_call.
      rewrite (ScheduleTimer_arming_failure _ _ _ _ _ what Hf1 Hf2). cbn. auto.
    - unfold handler_call.
      rewrite (ScheduleTimer_arming_failure _ _ _ _ _ what Hf1 Hf2). cbn. auto. }
  destruct Hframe as (Hcerr & Hhist & Hqueue).
  split; [exact Hcerr|]. split; [exact Hhist|]. split; [exact Hqueue|].
  intros evs w2 Hrun.
  destruct (run_entries_off_queue _ _ _ _ Hlt Hq Hrun) as [Hq2 He2].
  split; [exact Hq2|]. rewrite He2, Hhist.
  destruct (timer_life_fresh _ _ (Hc (timers_made w))) as (_ & _ & He); [cbn; lia|].
  exact He.
Qed.

Lemma arming_failure_drops_the_action_witness :
  let w := after first_async_wait_fails 0 [] in
  let w1 := after first_async_wait_fails 0 [Call 7 100 lambda_callback 42] in
  run [] (Scheduler first_async_wait_fails 0) = Some w /\
  timer_ctor_throws (faults w) (timers_made w) = None /\
  async_wait_throws (faults w) (timers_made w) = Some "std::bad_alloc" /\
  calls_ScheduleTimer 7 100 lambda_callback 42 w w1 /\
  cerr w1 =
    cerr w ++ ["error scheduling timer (id = " +:+ pretty 7 +:+ "): " +:+ "std::bad_alloc"].
Proof.
  intros w w1.
  assert (H1 : run [] (Scheduler first_async_wait_fails 0) = Some w)
    by (vm_compute; reflexivity).
  assert (H2 : timer_ctor_throws (faults w) (timers_made w) = None) by reflexivity.
  assert (H3 : async_wait_throws (faults w) (timers_made w) = Some "std::bad_alloc")
    by reflexivity.
  assert (H4 : calls_ScheduleTimer 7 100 lambda_callback 42 w w1)
    by (apply generic_from_user; vm_compute; reflexivity).
  refine (conj H1 (conj H2 (conj H3 (conj H4 _)))).
  exact (proj1 (arming_failure_drops_the_action first_async_wait_fails 0 [] 7 100
                  lambda_callback 42 w w1 "std::bad_alloc" H1 H2 H3 H4)).
Defined.

(** ** Timers do not disturb each other *)

(** A call of [ScheduleTimer] leaves every wait already queued in place, with
    its expiry and its handler, whatever [timer_id] it is given: the new
    timer takes a handle no queued wait has, so that an identifier used
    twice gives two independent timers. *)
Theorem scheduling_keeps_queued_waits {A R} (env : asio_faults) (t0 : Z)
    (pre : list event) (timer_id duration : Z) (callback : Z -> A -> prog R)
    (callback_args : A) (w w1 : world) (h : nat) (op : wait_op) :
  run pre (Scheduler env t0) = Some w ->
  calls_ScheduleTimer timer_id duration callback callback_args w w1 ->
  timer_queue w !! h = Some op ->
  h <> timers_made w /\ timer_queue w1 !! h = Some op.
Proof.
  intros Hpre Hcall Hq.
  pose proof (reachable_consistent _ _ _ _ Hpre) as Hc.
  split.
  - intros ->.
    destruct (timer_life_fresh _ _ (Hc (timers_made w))) as (Hq' & _); [cbn; lia|].
    cbn in Hq'. congruence.
  - assert (Hstep : exists ev, step ev w = Some w1 /\
                               (forall h' e, ev <> Complete h' e) /\ ev <> Join)
      by apply (calls_ScheduleTimer_step _ _ _ _ _ _ Hcall).
    destruct Hstep as (ev & Hstep & Hnc & Hnj).
    destruct (step_summary _ _ _ Hc Hstep)
      as [(h' & e & op' & -> & _)|[(-> & _)|[_ Hkeep]]].
    + now destruct (Hnc h' e).
    + now destruct Hnj.
    + auto.
Qed.

Lemma scheduling_keeps_queued_waits_witness :
  let w := after no_faults 0 [Call 1 2000 lambda_callback 42] in
  let w1 := after no_faults 0 [Call 1 2000 lambda_callback 42;
                               Call 1 500 lambda_callback 43] in
  run [Call 1 2000 lambda_callback 42] (Scheduler no_faults 0) = Some w /\
  calls_ScheduleTimer 1 500 lambda_callback 43 w w1 /\
  timer_queue w !! 0%nat = Some (armed_wait 1 2000 lambda_callback 42 (Scheduler no_faults 0)) /\
  timer_queue w1 !! 0%nat = Some (armed_wait 1 2000 lambda_callback 42 (Scheduler no_faults 0)).
Proof.
  intros w w1.
  assert (H1 : run [Call 1 2000 lambda_callback 42] (Scheduler no_faults 0) = Some w)
    by (vm_compute; reflexivity).
  assert (H2 : calls_ScheduleTimer 1 500 lambda_callback 43 w w1)
    by (apply generic_from_user; vm_compute; reflexivity).
  assert (H3 : timer_queue w !! 0%nat =
               Some (armed_wait 1 2000 lambda_callback 42 (Scheduler no_faults 0)))
    by (vm_compute; reflexivity).
  refine (conj H1 (conj H2 (conj H3 _))).
  exact (proj2 (scheduling_keeps_queued_waits no_faults 0
                  [Call 1 2000 lambda_callback 42] 1 500 lambda_callback 43 w w1 0%nat _
                  H1 H2 H3)).
Defined.

(** ** What a call and a handler step leave alone *)

Lemma ScheduleTimer_frame {A R} (timer_id duration : Z) (callback : Z -> A -> prog R)
    (callback_args : A) (w : world) :
  let w' := snd (ScheduleTimer timer_id duration callback callback_args w) in
  stopped w' = stopped w /\ io_service_work_ w' = io_service_work_ w /\
  phase w' = phase w /\ io_service_thread_ w' = io_service_thread_ w /\
  faults w' = faults w /\ cout w' = cout w /\ now w' = now w /\
  exists l, cerr w' = cerr w ++ l.
Proof.
  rewrite ScheduleTimer_cases. cbn zeta.
  assert (Hnil : exists l, cerr w = cerr w ++ l) by (exists []; now rewrite app_nil_r).
  destruct (timer_ctor_throws _ _); [cbn; auto 10|].
  destruct (async_wait_throws _ _); cbn; eauto 10.
Qed.

Lemma user_call_frame {A R} (timer_id duration : Z) (callback : Z -> A -> prog R)
    (callback_args : A) (w : world) :
  let w' := user_call (ScheduleTimer timer_id duration callback callback_args) w in
  stopped w' = stopped w /\ io_service_work_ w' = io_service_work_ w /\
  phase w' = phase w /\ io_service_thread_ w' = io_service_thread_ w /\
  faults w' = faults w /\ cout w' = cout w /\ now w' = now w /\
  exists l, cerr w' = cerr w ++ l.
Proof.
  pose proof (ScheduleTimer_frame timer_id duration callback callback_args w) as H.
  cbn zeta in *. unfold user_call.
  destruct (ScheduleTimer timer_id duration callback callback_args w) as [[x|e] w'];
    cbn in *; exact H.
Qed.

Lemma work_frame (h : nat) (p : prog unit) (w : world) :
  let w' := work h p w in
  stopped w' = stopped w /\ io_service_work_ w' = io_service_work_ w /\
  phase w' = phase w /\ faults w' = faults w /\ now w' = now w /\
  (exists l, cerr w' = cerr w ++ l) /\
  (io_service_thread_ w' = Finished ->
   exists what, p = Throw (std_exception what) /\
                cerr w' = cerr w ++ [service_error what]).
Proof.
  assert (Hnil : exists l, cerr w = cerr w ++ l) by (exists []; now rewrite app_nil_r).
  assert (Hcall : forall {A R} i d (cb : Z -> A -> prog R) a k,
             let w' := handler_call (ScheduleTimer i d cb a) h k w in
             stopped w' = stopped w /\ io_service_work_ w' = io_service_work_ w /\
             phase w' = phase w /\ faults w' = faults w /\ now w' = now w /\
             (exists l, cerr w' = cerr w ++ l) /\
             (io_service_thread_ w' = Finished ->
              exists what, CallScheduleTimer i d cb a k = Throw (std_exception what) /\
                           cerr w' = cerr w ++ [service_error what])).
  { intros A R i d cb a k.
    pose proof (ScheduleTimer_frame i d cb a w) as H. cbn zeta in *.
    unfold handler_call. destruct (ScheduleTimer i d cb a w) as [[x|e] w1]; cbn in *;
      destruct H as (? & ? & ? & ? & ? & ? & ? & ?); repeat split; auto; discriminate. }
  destruct p as [r|e|os text k|A R' i d cb a k|T A R' i d mf inst a k]; cbn [work].
  - cbn. repeat split; auto. discriminate.
  - destruct e as [what|]; cbn; repeat split; eauto; discriminate.
  - destruct os; cbn; repeat split; eauto; discriminate.
  - apply Hcall.
  - rewrite ScheduleTimer_member_unfold.
    destruct (Hcall _ _ i d (member_callback mf inst) a k)
      as (? & ? & ? & ? & ? & ? & Hf).
    repeat split; auto. intros Hth. destruct (Hf Hth) as (what & Heq & _). discriminate.
Qed.

(** ** The service thread while the scheduler is alive *)

Lemma step_cerr_grows (ev : event) (w w' : world) :
  step ev w = Some w' -> exists l, cerr w' = cerr w ++ l.
Proof.
  assert (Hnil : exists l, cerr w = cerr w ++ l) by (exists []; now rewrite app_nil_r).
  unfold step. destruct (terminated w); [discriminate|].
  destruct ev as [dt|A R i d cb a|T A R i d mf inst a|h e| | | |].
  - now intros [_ ->]%elapse_inv.
  - intros [_ ->]%call_inv. apply user_call_frame.
  - intros [_ ->]%call_inv. rewrite ScheduleTimer_member_unfold. apply user_call_frame.
  - now intros (op & _ & _ & _ & _ & ->)%complete_inv.
  - intros (h & p & _ & ->)%service_work_inv. apply work_frame.
  - now intros (_ & _ & ->)%run_returns_inv.
  - intros [_ ->]%destruct_body_inv. destruct (stop_throws (faults w)); cbn; eauto.
  - now intros (_ & _ & ->)%destruct_members_inv.
Qed.

Lemma step_kept_alive (ev : event) (w w' : world) :
  (phase w = Alive ->
   stopped w = false /\ io_service_work_ w = true /\
   (io_service_thread_ w = Finished -> exists what, In (service_error what) (cerr w))) ->
  step ev w = Some w' ->
  phase w' = Alive ->
  stopped w' = false /\ io_service_work_ w' = true /\
  (io_service_thread_ w' = Finished -> exists what, In (service_error what) (cerr w')).
Proof.
  intros Hinv. unfold step. destruct (terminated w); [discriminate|].
  destruct ev as [dt|A R i d cb a|T A R i d mf inst a|h e| | | |].
  - intros [_ ->]%elapse_inv. exact Hinv.
  - intros [Hp ->]%call_inv _.
    destruct (user_call_frame i d cb a w) as (-> & -> & _ & -> & _ & _ & _ & l & ->).
    destruct (Hinv Hp) as (? & ? & Hf). repeat split; auto.
    intros Hth. destruct (Hf Hth) as [what Hin]. exists what. apply in_or_app. auto.
  - intros [Hp ->]%call_inv _. rewrite ScheduleTimer_member_unfold.
    destruct (user_call_frame i d (member_callback mf inst) a w)
      as (-> & -> & _ & -> & _ & _ & _ & l & ->).
    destruct (Hinv Hp) as (? & ? & Hf). repeat split; auto.
    intros Hth. destruct (Hf Hth) as [what Hin]. exists what. apply in_or_app. auto.
  - intros (op & _ & _ & _ & _ & ->)%complete_inv. cbn. intros Hp.
    destruct (Hinv Hp) as (? & ? & _). repeat split; auto. discriminate.
  - intros (h & p & _ & ->)%service_work_inv.
    destruct (work_frame h p w) as (-> & -> & -> & _ & _ & _ & Hf). intros Hp.
    destruct (Hinv Hp) as (? & ? & _). repeat split; auto.
    intros Hth. destruct (Hf Hth) as (what & _ & ->). exists what.
    apply in_or_app. right. now left.
  - intros (_ & Hret & ->)%run_returns_inv. cbn. intros Hp.
    destruct (Hinv Hp) as (Hs & Hw & _). unfold run_may_return in Hret.
    rewrite Hs, Hw in Hret. discriminate.
  - intros [_ ->]%destruct_body_inv. cbn. discriminate.
  - intros (_ & _ & ->)%destruct_members_inv. cbn. discriminate.
Qed.

Lemma reachable_kept_alive (env : asio_faults) (t0 : Z) (evs : list event) (w : world) :
  run evs (Scheduler env t0) = Some w ->
  phase w = Alive ->
  stopped w = false /\ io_service_work_ w = true /\
  (io_service_thread_ w = Finished -> exists what, In (service_error what) (cerr w)).
Proof.
  intros Hrun.
  apply (run_invariant
           (fun w1 => phase w1 = Alive ->
                      stopped w1 = false /\ io_service_work_ w1 = true /\
                      (io_service_thread_ w1 = Finished ->
                       exists what, In (service_error what) (cerr w1))))
    with (evs := evs) (w := Scheduler env t0); [| |exact Hrun].
  - intros ev w1 w2 H1 Hstep. eapply step_kept_alive; eassumption.
  - cbn. intros _. repeat split; auto; discriminate.
Qed.

(** While the scheduler has not been destructed the io_service is not
    stopped and the work object exists, so that [run()] does not return,
    even with no wait queued.  The service thread leaves [Service()] before
    the destruction only by an exception, which is on [std::cerr]. *)
Theorem service_stays_in_run_while_alive (env : asio_faults) (t0 : Z)
    (evs : list event) (w : world) :
  run evs (Scheduler env t0) = Some w ->
  phase w = Alive ->
  stopped w = false /\
  io_service_work_ w = true /\
  step RunReturns w = None /\
  (io_service_thread_ w = Finished ->
   exists what, In ("exception in service thread: " +:+ what) (cerr w)).
Proof.
  intros Hrun Hp.
  destruct (reachable_kept_alive _ _ _ _ Hrun Hp) as (Hs & Hw & Hf).
  split; [exact Hs|]. split; [exact Hw|]. split; [|exact Hf].
  unfold step, run_returns, run_may_return. rewrite Hs, Hw.
  destruct (terminated w); [reflexivity|].
  destruct (io_service_thread_ w) as [[?|]| |]; reflexivity.
Qed.

Lemma service_stays_in_run_while_alive_witness :
  let evs := [Call 1 2000 lambda_callback 42; Elapse 2000; Complete 0%nat ec_success;
              Work; Work; Elapse 100000] in
  let w := after no_faults 0 evs in
  run evs (Scheduler no_faults 0) = Some w /\
  phase w = Alive /\
  step RunReturns w = None.
Proof.
  intros evs w.
  assert (H1 : run evs (Scheduler no_faults 0) = Some w) by (vm_compute; reflexivity).
  assert (H2 : phase w = Alive) by (vm_compute; reflexivity).
  refine (conj H1 (conj H2 _)).
  exact (proj1 (proj2 (proj2 (service_stays_in_run_while_alive no_faults 0 evs w H1 H2)))).
Defined.

(** ** No timer is lost before the destruction *)

Lemma ScheduleTimer_newly_armed {A R} (timer_id duration : Z)
    (callback : Z -> A -> prog R) (callback_args : A) (w : world) (h : nat) :
  let w' := snd (ScheduleTimer timer_id duration callback callback_args w) in
  arms h (history w') <> arms h (history w) -> is_Some (timer_queue w' !! h).
Proof.
  rewrite ScheduleTimer_cases. cbn zeta.
  destruct (timer_ctor_throws _ _); [cbn; congruence|].
  destruct (async_wait_throws _ _); [cbn; congruence|].
  cbn. rewrite arms_snoc. cbn.
  destruct (decide (timers_made w = h)) as [<-|Hne].
  - intros _. rewrite lookup_insert_eq. eauto.
  - rewrite app_nil_r. congruence.
Qed.

Lemma step_newly_armed (ev : event) (w w' : world) (h : nat) :
  step ev w = Some w' ->
  arms h (history w') <> arms h (history w) -> is_Some (timer_queue w' !! h).
Proof.
  unfold step. destruct (terminated w); [discriminate|].
  assert (Huser : forall {A R} i d (cb : Z -> A -> prog R) a,
             arms h (history (user_call (ScheduleTimer i d cb a) w)) <> arms h (history w) ->
             is_Some (timer_queue (user_call (ScheduleTimer i d cb a) w) !! h)).
  { intros A R i d cb a. pose proof (ScheduleTimer_newly_armed i d cb a w h) as H.
    cbn zeta in H. unfold user_call.
    destruct (ScheduleTimer i d cb a w) as [[x|e] w1]; cbn in *; [exact H|].
    rewrite arms_snoc. cbn. rewrite app_nil_r. exact H. }
  assert (Hhandler : forall {A R} i d (cb : Z -> A -> prog R) a h0 k,
             arms h (history (handler_call (ScheduleTimer i d cb a) h0 k w))
               <> arms h (history w) ->
             is_Some (timer_queue (handler_call (ScheduleTimer i d cb a) h0 k w) !! h)).
  { intros A R i d cb a h0 k. pose proof (ScheduleTimer_newly_armed i d cb a w h) as H.
    cbn zeta in H. unfold handler_call.
    destruct (ScheduleTimer i d cb a w) as [[x|e] w1]; cbn in *; exact H. }
  destruct ev as [dt|A R i d cb a|T A R i d mf inst a|h' e| | | |].
  - intros [_ ->]%elapse_inv. cbn. congruence.
  - intros [_ ->]%call_inv. apply Huser.
  - intros [_ ->]%call_inv. rewrite ScheduleTimer_member_unfold. apply Huser.
  - intros (op & _ & _ & _ & _ & ->)%complete_inv. cbn.
    rewrite arms_snoc. cbn. rewrite app_nil_r. congruence.
  - intros (h0 & p & _ & ->)%service_work_inv.
    destruct p as [r|e|os text k|A R' i d cb a k|T A R' i d mf inst a k]; cbn [work].
    + cbn. rewrite arms_snoc. cbn. rewrite app_nil_r. congruence.
    + destruct e; cbn; rewrite arms_snoc; cbn; rewrite app_nil_r; congruence.
    + destruct os; cbn; congruence.
    + apply Hhandler.
    + rewrite ScheduleTimer_member_unfold. apply Hhandler.
  - intros (_ & _ & ->)%run_returns_inv. cbn. congruence.
  - intros [_ ->]%destruct_body_inv. destruct (stop_throws (faults w)); cbn; congruence.
  - intros (_ & _ & ->)%destruct_members_inv. cbn. congruence.
Qed.

Lemma step_destroyed_final (ev : event) (w w' : world) :
  step ev w = Some w' -> phase w = Destroyed -> phase w' = Destroyed.
Proof.
  unfold step. destruct (terminated w); [discriminate|].
  destruct ev as [dt|A R i d cb a|T A R i d mf inst a|h e| | | |].
  - now intros [_ ->]%elapse_inv.
  - intros [Hp ->]%call_inv. congruence.
  - intros [Hp ->]%call_inv. congruence.
  - now intros (op & _ & _ & _ & _ & ->)%complete_inv.
  - intros (h & p & _ & ->)%service_work_inv. now rewrite work_phase.
  - now intros (_ & _ & ->)%run_returns_inv.
  - intros [Hp ->]%destruct_body_inv. congruence.
  - intros (Hp & _ & ->)%destruct_members_inv. congruence.
Qed.

Lemma step_not_dropped (ev : event) (w w' : world) :
  consistent w ->
  (phase w <> Destroyed ->
   forall h, arms h (history w) <> [] -> entries h (history w) = [] ->
             is_Some (timer_queue w !! h)) ->
  step ev w = Some w' ->
  phase w' <> Destroyed ->
  forall h, arms h (history w') <> [] -> entries h (history w') = [] ->
            is_Some (timer_queue w' !! h).
Proof.
  intros Hc Hinv Hstep Hp' h Ha He.
  assert (Hp : phase w <> Destroyed).
  { intros Hd. apply Hp'. eapply step_destroyed_final; eassumption. }
  destruct (step_summary _ _ _ Hc Hstep)
    as [(h' & e & op & -> & Hq & Hq' & Hh)|[(-> & _ & _)|[(l & Hh & Hl) Hkeep]]].
  - assert (Ha0 : arms h (history w) <> []).
    { rewrite Hh, arms_snoc in Ha. cbn in Ha. now rewrite app_nil_r in Ha. }
    rewrite Hh, entries_snoc in He. cbn in He.
    destruct (decide (h' = h)) as [->|Hne].
    + destruct (entries h (history w)); discriminate He.
    + rewrite app_nil_r in He. rewrite Hq', lookup_delete_ne by assumption. auto.
  - unfold step in Hstep. destruct (terminated w); [discriminate|].
    apply destruct_members_inv in Hstep as (_ & _ & ->). now destruct Hp'.
  - assert (He0 : entries h (history w) = []).
    { rewrite Hh in He. unfold entries in *. rewrite omap_app in He.
      now apply app_eq_nil in He as [? _]. }
    assert (Harms : arms h (history w') = arms h (history w) ++ arms h l).
    { rewrite Hh. unfold arms. apply omap_app. }
    destruct (arms h l) as [|a rest] eqn:Hl'.
    + rewrite app_nil_r in Harms. rewrite Harms in Ha.
      destruct (Hinv Hp h Ha He0) as [op Hop]. rewrite (Hkeep _ _ Hop). eauto.
    + eapply step_newly_armed; [exact Hstep|]. rewrite Harms. intros Heq.
      apply (f_equal length) in Heq. rewrite length_app in Heq. cbn in Heq. lia.
Qed.

(** While the scheduler has not been destroyed, no armed timer disappears:
    its wait is still queued, as it was armed, with no call of its handler
    so far, or it is off the queue and its handler has been called exactly
    once.  Only the destruction drops waits. *)
Theorem no_timer_lost_before_destruction (env : asio_faults) (t0 : Z)
    (evs : list event) (w : world) (h : nat) (x : Z) (f : error_code -> prog unit) :
  run evs (Scheduler env t0) = Some w ->
  phase w <> Destroyed ->
  arms h (history w) = [(x, f)] ->
  (timer_queue w !! h = Some {| op_expiry := x; op_handler := f |} /\
   entries h (history w) = []) \/
  (timer_queue w !! h = None /\
   exists e t, entries h (history w) = [(e, t, f e)] /\ (ec_failed e = false -> x <= t)).
Proof.
  intros Hrun Hp Ha.
  pose proof (reachable_consistent _ _ _ _ Hrun) as Hc.
  assert (Hinv : consistent w /\
                 (phase w <> Destroyed ->
                  forall h, arms h (history w) <> [] -> entries h (history w) = [] ->
                            is_Some (timer_queue w !! h))).
  { apply (run_invariant
             (fun w1 => consistent w1 /\
                        (phase w1 <> Destroyed ->
                         forall h, arms h (history w1) <> [] ->
                                   entries h (history w1) = [] ->
                                   is_Some (timer_queue w1 !! h))))
      with (evs := evs) (w := Scheduler env t0); [| |exact Hrun].
    - intros ev w1 w2 [Hc1 H1] Hstep. split.
      + eapply step_consistent; eassumption.
      + eapply step_not_dropped; eassumption.
    - split; [apply Scheduler_consistent|]. cbn. intros _ h0 Hne. now destruct Hne. }
  destruct Hinv as [_ Hinv].
  destruct (Hc h) as [H1 H2 H3|op H0 H1 H2 H3 H4|x' f' e t H0 H1 H2 H3 H4 H5|x' f' H0 H1 H2 H3 H4];
    cbn in *.
  - congruence.
  - left. rewrite H2 in Ha. injection Ha as <- <-. split; [|exact H4].
    rewrite H1. now destruct op.
  - right. rewrite H2 in Ha. injection Ha as <- <-. eauto.
  - exfalso. destruct (Hinv Hp h) as [op Hop]; [rewrite H2; discriminate|exact H4|].
    congruence.
Qed.

Lemma no_timer_lost_before_destruction_witness :
  let evs := [Call 1 2000 lambda_callback 42; Elapse 2000; Destruct] in
  let w := after no_faults 0 evs in
  run evs (Scheduler no_faults 0) = Some w /\
  phase w <> Destroyed /\
  arms 0 (history w) = [(2000, wait_handler 1 lambda_callback 42)] /\
  ((timer_queue w !! 0%nat =
      Some {| op_expiry := 2000; op_handler := wait_handler 1 lambda_callback 42 |} /\
    entries 0 (history w) = []) \/
   (timer_queue w !! 0%nat = None /\
    exists e t, entries 0 (history w) = [(e, t, wait_handler 1 lambda_callback 42 e)] /\
                (ec_failed e = false -> 2000 <= t))).
Proof.
  intros evs w.
  assert (H1 : run evs (Scheduler no_faults 0) = Some w) by (vm_compute; reflexivity).
  assert (H2 : phase w <> Destroyed) by (vm_compute; discriminate).
  assert (H3 : arms 0 (history w) = [(2000, wait_handler 1 lambda_callback 42)])
    by (vm_compute; reflexivity).
  refine (conj H1 (conj H2 (conj H3 _))).
  exact (no_timer_lost_before_destruction no_faults 0 evs w 0%nat 2000
           (wait_handler 1 lambda_callback 42) H1 H2 H3).
Defined.

(** ** After an exception has ended the service thread *)

(** A timer scheduled after the service thread has ended is accepted like
    any other: the call returns normally, writes nothing to [std::cerr] and
    queues the wait.  Its handler is never called, in any continuation. *)
Theorem timer_scheduled_after_service_ended_never_fires {A R} (env : asio_faults)
    (t0 : Z) (pre : list event) (timer_id duration : Z) (callback : Z -> A -> prog R)
    (callback_args : A) (w w1 : world) :
  run pre (Scheduler env t0) = Some w ->
  io_service_thread_ w = Finished ->
  timer_ctor_throws (faults w) (timers_made w) = None ->
  async_wait_throws (faults w) (timers_made w) = None ->
  step (Call timer_id duration callback callback_args) w = Some w1 ->
  timer_queue w1 !! timers_made w =
    Some (armed_wait timer_id duration callback callback_args w) /\
  cerr w1 = cerr w /\
  history w1 =
    history w ++ [Armed (timers_made w) (now w + duration)
                    (wait_handler timer_id callback callback_args)] /\
  forall evs w2,
    run evs w1 = Some w2 -> entries (timers_made w) (history w2) = [].
Proof.
  intros Hpre Hth Hf1 Hf2 Hstep.
  pose proof (reachable_consistent _ _ _ _ Hpre) as Hc.
  pose proof (step_consistent _ _ _ Hstep Hc) as Hc1.
  pose proof (step_finished _ _ _ Hc Hth Hstep) as Hth1.
  assert (Hw1 : w1 = user_call (ScheduleTimer timer_id duration callback callback_args) w).
  { unfold step in Hstep. destruct (terminated w); [discriminate|].
    now apply call_inv in Hstep as [_ ->]. }
  assert (Hq : timer_queue w1 !! timers_made w =
               Some (armed_wait timer_id duration callback callback_args w) /\
               cerr w1 = cerr w /\
               history w1 =
                 history w ++ [Armed (timers_made w) (now w + duration)
                                 (wait_handler timer_id callback callback_args)]).
  { rewrite Hw1. unfold user_call. rewrite ScheduleTimer_cases. cbn zeta.
    rewrite Hf1, Hf2. cbn. split; [apply lookup_insert_eq|auto]. }
  destruct Hq as (Hq & Hcerr & Hhist).
  split; [exact Hq|]. split; [exact Hcerr|]. split; [exact Hhist|].
  intros evs w2 Hrun.
  destruct (run_finished _ _ _ Hc1 Hth1 Hrun) as [_ He]. rewrite He.
  destruct (Hc1 (timers_made w))
    as [H1 _ _|op _ _ _ _ H4|? ? ? ? _ H1 _ _ _ _|? ? _ H1 _ _ _]; cbn in *;
    congruence.
Qed.

Lemma timer_scheduled_after_service_ended_never_fires_witness :
  let pre := [Call 1 1000 throwing_callback "boom"; Elapse 1000;
              Complete 0%nat ec_success; Work] in
  let w := after no_faults 0 pre in
  let w1 := after no_faults 0 (pre ++ [Call 2 10 lambda_callback 42]) in
  run pre (Scheduler no_faults 0) = Some w /\
  io_service_thread_ w = Finished /\
  timer_ctor_throws (faults w) (timers_made w) = None /\
  async_wait_throws (faults w) (timers_made w) = None /\
  step (Call 2 10 lambda_callback 42) w = Some w1 /\
  forall evs w2, run evs w1 = Some w2 -> entries (timers_made w) (history w2) = [].
Proof.
  intros pre w w1.
  assert (H1 : run pre (Scheduler no_faults 0) = Some w) by (vm_compute; reflexivity).
  assert (H2 : io_service_thread_ w = Finished) by (vm_compute; reflexivity).
  assert (H3 : timer_ctor_throws (faults w) (timers_made w) = None)
    by (vm_compute; reflexivity).
  assert (H4 : async_wait_throws (faults w) (timers_made w) = None)
    by (vm_compute; reflexivity).
  assert (H5 : step (Call 2 10 lambda_callback 42) w = Some w1)
    by (vm_compute; reflexivity).
  refine (conj H1 (conj H2 (conj H3 (conj H4 (conj H5 _))))).
  exact (proj2 (proj2 (proj2
           (timer_scheduled_after_service_ended_never_fires no_faults 0 pre 2 10
              lambda_callback 42 w w1 H1 H2 H3 H4 H5)))).
Defined.

(** A callback that calls [ScheduleTimer] and does not catch: when the
    construction of the new timer throws, the exception unwinds the handler
    and leaves [run()]; [Service()] logs it and the service thread ends.
    The rest of the callback is not executed, the queue is as it was, and no
    handler is called afterwards. *)
Theorem timer_construction_failure_in_callback_ends_service {A R} (env : asio_faults)
    (t0 : Z) (pre : list event) (w : world) (h : nat) (timer_id duration : Z)
    (callback : Z -> A -> prog R) (callback_args : A) (k : prog unit) (what : string) :
  run pre (Scheduler env t0) = Some w ->
  io_service_thread_ w =
    InRun (Some (h, CallScheduleTimer timer_id duration callback callback_args k)) ->
  timer_ctor_throws (faults w) (timers_made w) = Some what ->
  exists w2,
    run [Work; Work] w = Some w2 /\
    io_service_thread_ w2 = Finished /\
    cerr w2 = cerr w ++ ["exception in service thread: " +:+ what] /\
    cout w2 = cout w /\
    timer_queue w2 = timer_queue w /\
    forall evs w3,
      run evs w2 = Some w3 ->
      forall h', entries h' (history w3) = entries h' (history w).
Proof.
  intros Hpre Hth Hf.
  pose proof (reachable_consistent _ _ _ _ Hpre) as Hc.
  assert (Hcall : ScheduleTimer timer_id duration callback callback_args w =
                  (Raised (std_exception what), set_timers_made (S (timers_made w)) w)).
  { rewrite ScheduleTimer_cases. cbn zeta. now rewrite Hf. }
  assert (Hrun : run [Work; Work] w =
                 Some (Service_catch (std_exception what)
                         (record (Left h)
                            (set_thread (InRun (Some (h, Throw (std_exception what))))
                               (set_timers_made (S (timers_made w)) w))))).
  { cbn [run]. unfold step at 1, terminated, service_work. rewrite Hth. cbn [work].
    unfold handler_call. rewrite Hcall. reflexivity. }
  eexists. split; [exact Hrun|].
  split; [reflexivity|]. split; [reflexivity|]. split; [reflexivity|].
  split; [reflexivity|].
  intros evs w3 Hrun3 h'.
  assert (Hc2 : consistent
                  (Service_catch (std_exception what)
                     (record (Left h)
                        (set_thread (InRun (Some (h, Throw (std_exception what))))
                           (set_timers_made (S (timers_made w)) w))))).
  { eapply run_consistent; [exact Hrun|exact Hc]. }
  destruct (run_finished _ _ _ Hc2 eq_refl Hrun3) as [_ He]. rewrite He.
  cbn. rewrite entries_snoc. apply app_nil_r.
Qed.

Lemma timer_construction_failure_in_callback_ends_service_witness :
  let env := {| timer_ctor_throws := fun h => if decide (h = 1%nat)
                                              then Some "std::bad_alloc" else None;
                async_wait_throws := fun _ => None;
                stop_throws := None |} in
  let pre := [Call 1 1000 chaining_callback 500; Elapse 1000;
              Complete 0%nat ec_success] in
  let w := after env 0 pre in
  run pre (Scheduler env 0) = Some w /\
  io_service_thread_ w =
    InRun (Some (0%nat, CallScheduleTimer 2 500 throwing_callback "late" (Return tt))) /\
  timer_ctor_throws (faults w) (timers_made w) = Some "std::bad_alloc" /\
  exists w2,
    run [Work; Work] w = Some w2 /\
    io_service_thread_ w2 = Finished /\
    cerr w2 = cerr w ++ ["exception in service thread: " +:+ "std::bad_alloc"].
Proof.
  intros env pre w.
  assert (H1 : run pre (Scheduler env 0) = Some w) by (vm_compute; reflexivity).
  assert (H2 : io_service_thread_ w =
               InRun (Some (0%nat,
                            CallScheduleTimer 2 500 throwing_callback "late" (Return tt))))
    by (vm_compute; reflexivity).
  assert (H3 : timer_ctor_throws (faults w) (timers_made w) = Some "std::bad_alloc")
    by (vm_compute; reflexivity).
  refine (conj H1 (conj H2 (conj H3 _))).
  destruct (timer_construction_failure_in_callback_ends_service env 0 pre w 0%nat
              2 500 throwing_callback "late" (Return tt) "std::bad_alloc" H1 H2 H3)
    as (w2 & Hrun & Hth & Hcerr & _).
  exact (ex_intro _ w2 (conj Hrun (conj Hth Hcerr))).
Defined.

(** ** Destruction without a hang *)

(** When [stop()] does not throw and the service thread is idle in [run()],
    the destruction goes through: [run()] returns, the jthread joins and the
    members are destroyed.  Nothing is written to either stream, no handler
    is called, and the waits still queued are dropped.  When the service
    thread has already ended, the join does not even have to wait. *)
Theorem destruction_completes_when_service_is_idle (env : asio_faults) (t0 : Z)
    (pre : list event) (w : world) :
  run pre (Scheduler env t0) = Some w ->
  phase w = Alive ->
  stop_throws (faults w) = None ->
  io_service_thread_ w = InRun None \/ io_service_thread_ w = Finished ->
  exists w3,
    (run [Destruct; RunReturns; Join] w = Some w3 \/ run [Destruct; Join] w = Some w3) /\
    phase w3 = Destroyed /\
    io_service_thread_ w3 = Finished /\
    timer_queue w3 = ∅ /\
    cerr w3 = cerr w /\
    cout w3 = cout w /\
    history w3 = history w.
Proof.
  intros _ Hp Hs [Hth|Hth].
  - exists (set_phase Destroyed
              (set_queue ∅ (set_work false
                 (Service_return (set_phase Destructing (set_stopped true w)))))).
    split; [left|cbn; auto 10].
    cbn [run]. unfold step at 1, terminated, destruct_body.
    rewrite Hth, Hp, Scheduler_destructor_cases, Hs.
    unfold step at 1, terminated, run_returns, run_may_return. cbn. rewrite Hth. cbn.
    reflexivity.
  - exists (set_phase Destroyed
              (set_queue ∅ (set_work false (set_phase Destructing (set_stopped true w))))).
    split; [right|cbn; auto 10].
    cbn [run]. unfold step at 1, terminated, destruct_body.
    rewrite Hth, Hp, Scheduler_destructor_cases, Hs.
    unfold step, terminated, destruct_members. cbn. rewrite Hth. reflexivity.
Qed.

Lemma destruction_completes_when_service_is_idle_witness :
  let pre := [Call 1 2000 lambda_callback 42; Elapse 500] in
  let w := after no_faults 0 pre in
  run pre (Scheduler no_faults 0) = Some w /\
  phase w = Alive /\
  stop_throws (faults w) = None /\
  (io_service_thread_ w = InRun None \/ io_service_thread_ w = Finished) /\
  exists w3,
    (run [Destruct; RunReturns; Join] w = Some w3 \/ run [Destruct; Join] w = Some w3) /\
    phase w3 = Destroyed /\
    history w3 = history w.
Proof.
  intros pre w.
  assert (H1 : run pre (Scheduler no_faults 0) = Some w) by (vm_compute; reflexivity).
  assert (H2 : phase w = Alive) by (vm_compute; reflexivity).
  assert (H3 : stop_throws (faults w) = None) by (vm_compute; reflexivity).
  assert (H4 : io_service_thread_ w = InRun None \/ io_service_thread_ w = Finished)
    by (left; vm_compute; reflexivity).
  refine (conj H1 (conj H2 (conj H3 (conj H4 _)))).
  destruct (destruction_completes_when_service_is_idle no_faults 0 pre w H1 H2 H3 H4)
    as (w3 & Hrun & Hp & _ & _ & _ & _ & Hh).
  exact (ex_intro _ w3 (conj Hrun (conj Hp Hh))).
Defined.

(** ** main.cpp: a timer that re-arms itself *)

Lemma Model_OnTimer_handler_positive (fuel : nat) (timer_id n : Z) :
  0 < n mod 256 ->
  wait_handler timer_id (member_callback (Model_OnTimer_from (S fuel)) tt) n ec_success =
  Write std_cout (OnTimer_line timer_id)
    (CallScheduleTimerMember timer_id 1000 (Model_OnTimer_from fuel) tt (n mod 256 - 1)
       (Return tt)).
Proof.
  intros Hn. unfold wait_handler, member_callback. cbn [ec_failed ec_success ec_value].
  cbn [Z.eqb negb Model_OnTimer_from].
  destruct (0 <? n mod 256) eqn:Hlt; [reflexivity|].
  apply Z.ltb_ge in Hlt. lia.
Qed.

Lemma Model_OnTimer_handler_zero (fuel : nat) (timer_id n : Z) :
  fuel = O \/ n mod 256 = 0 ->
  wait_handler timer_id (member_callback (Model_OnTimer_from fuel) tt) n ec_success =
  Return tt.
Proof.
  intros Hn. unfold wait_handler, member_callback. cbn [ec_failed ec_success ec_value].
  cbn [Z.eqb negb]. destruct fuel as [|fuel]; [reflexivity|].
  destruct Hn as [Hn|Hn]; [discriminate|].
  cbn [Model_OnTimer_from]. rewrite Hn. reflexivity.
Qed.

Lemma step_elapse_idle (dt : Z) (w : world) :
  0 <= dt -> terminated w = false ->
  step (Elapse dt) w = Some (set_now (now w + dt) w).
Proof.
  intros Hdt Ht. unfold step, elapse. rewrite Ht.
  destruct (0 <=? dt) eqn:H; [reflexivity|]. apply Z.leb_gt in H. lia.
Qed.

Lemma step_work_running (h : nat) (p : prog unit) (w : world) :
  io_service_thread_ w = InRun (Some (h, p)) -> step Work w = Some (work h p w).
Proof. intros Hth. unfold step, terminated, service_work. now rewrite Hth. Qed.

(** One firing that re-arms: a line on [std::cout], and the next timer of
    the chain queued with the count one lower. *)
Lemma rearmed_round (w : world) (h fuel : nat) (timer_id n : Z) :
  rearmed w h (S fuel) timer_id n ->
  0 < n mod 256 ->
  exists w',
    run [Elapse 1000; Complete h ec_success; Work; Work; Work] w = Some w' /\
    rearmed w' (S h) fuel timer_id (n mod 256 - 1) /\
    cout w' = cout w ++ [OnTimer_line timer_id] /\
    cerr w' = cerr w /\
    now w' = now w + 1000.
Proof.
  intros (Hth & Hs & Hf & Hm & (op & Hq & Hx & Hh) & Hothers) Hn.
  assert (Ht : terminated w = false) by (unfold terminated; now rewrite Hth).
  set (w1 := set_now (now w + 1000) w).
  assert (H1 : step (Elapse 1000) w = Some w1) by (apply step_elapse_idle; [lia|exact Ht]).
  set (p := Write std_cout (OnTimer_line timer_id)
              (CallScheduleTimerMember timer_id 1000 (Model_OnTimer_from fuel) tt
                 (n mod 256 - 1) (Return tt))).
  assert (Hp : op_handler op ec_success = p).
  { rewrite Hh. now apply Model_OnTimer_handler_positive. }
  set (w2 := record (Entered h ec_success (now w1) p)
               (set_thread (InRun (Some (h, p)))
                  (set_queue (delete h (timer_queue w1)) w1))).
  assert (H2 : step (Complete h ec_success) w1 = Some w2).
  { unfold w2. rewrite <- Hp. apply complete_enabled; try assumption.
    unfold may_complete. cbn. apply Z.leb_le. lia. }
  set (w3 := set_thread
               (InRun (Some (h, CallScheduleTimerMember timer_id 1000
                                  (Model_OnTimer_from fuel) tt (n mod 256 - 1)
                                  (Return tt))))
               (write_line std_cout (OnTimer_line timer_id) w2)).
  assert (H3 : step Work w2 = Some w3) by exact (step_work_running h p w2 eq_refl).
  set (next := {| op_expiry := now w3 + 1000;
                  op_handler :=
                    wait_handler timer_id
                      (member_callback (Model_OnTimer_from fuel) tt) (n mod 256 - 1) |}).
  set (w4 := set_thread (InRun (Some (h, Return tt)))
               (record (Armed (S h) (now w3 + 1000) (op_handler next))
                  (set_queue (<[S h := next]> (timer_queue w3))
                     (set_timers_made (S (S h)) w3)))).
  assert (H4 : step Work w3 = Some w4).
  { rewrite (step_work_running h _ w3 eq_refl). cbn [work]. unfold handler_call.
    rewrite ScheduleTimer_member_unfold, ScheduleTimer_cases. cbn zeta.
    change (faults w3) with (faults w). change (timers_made w3) with (timers_made w).
    rewrite Hf, Hm. cbn [no_faults timer_ctor_throws async_wait_throws].
    reflexivity. }
  set (w5 := record (Left h) (set_thread (InRun None) w4)).
  assert (H5 : step Work w4 = Some w5)
    by exact (step_work_running h (Return tt) w4 eq_refl).
  exists w5. split.
  { cbn [run]. rewrite H1, H2, H3, H4, H5. reflexivity. }
  split; [|cbn; auto].
  unfold rearmed. cbn. repeat split; try assumption.
  - exists next. split; [apply lookup_insert_eq|]. cbn. split; [lia|reflexivity].
  - intros k Hk. rewrite lookup_insert_ne by congruence.
    destruct (decide (k = h)) as [->|Hne]; [apply lookup_delete_eq|].
    rewrite lookup_delete_ne by congruence. auto.
Qed.

(** The last firing, with the count at zero: nothing is written and nothing
    is armed. *)
Lemma rearmed_last (w : world) (h fuel : nat) (timer_id n : Z) :
  rearmed w h fuel timer_id n ->
  fuel = O \/ n mod 256 = 0 ->
  exists w',
    run [Elapse 1000; Complete h ec_success; Work] w = Some w' /\
    timer_queue w' = ∅ /\
    io_service_thread_ w' = InRun None /\
    timers_made w' = S h /\
    cout w' = cout w /\
    cerr w' = cerr w /\
    now w' = now w + 1000.
Proof.
  intros (Hth & Hs & Hf & Hm & (op & Hq & Hx & Hh) & Hothers) Hn.
  assert (Ht : terminated w = false) by (unfold terminated; now rewrite Hth).
  set (w1 := set_now (now w + 1000) w).
  assert (H1 : step (Elapse 1000) w = Some w1) by (apply step_elapse_idle; [lia|exact Ht]).
  assert (Hp : op_handler op ec_success = Return tt).
  { rewrite Hh. now apply Model_OnTimer_handler_zero. }
  set (w2 := record (Entered h ec_success (now w1) (Return tt))
               (set_thread (InRun (Some (h, Return tt)))
                  (set_queue (delete h (timer_queue w1)) w1))).
  assert (H2 : step (Complete h ec_success) w1 = Some w2).
  { unfold w2. rewrite <- Hp. apply complete_enabled; try assumption.
    unfold may_complete. cbn. apply Z.leb_le. lia. }
  set (w3 := record (Left h) (set_thread (InRun None) w2)).
  assert (H3 : step Work w2 = Some w3)
    by exact (step_work_running h (Return tt) w2 eq_refl).
  exists w3. split.
  { cbn [run]. rewrite H1, H2, H3. reflexivity. }
  cbn. repeat split; try assumption.
  apply map_eq. intros k. rewrite lookup_empty.
  destruct (decide (k = h)) as [->|Hne]; [apply lookup_delete_eq|].
  rewrite lookup_delete_ne by congruence. auto.
Qed.

Lemma rearmed_chain (timer_id : Z) (m : nat) :
  forall (fuel : nat) (n : Z) (w : world) (h : nat),
    rearmed w h fuel timer_id n ->
    n mod 256 = Z.of_nat m ->
    (m <= fuel)%nat ->
    exists w',
      run (rearm_schedule h m) w = Some w' /\
      cout w' = cout w ++ repeat (OnTimer_line timer_id) m /\
      timer_queue w' = ∅ /\
      io_service_thread_ w' = InRun None /\
      timers_made w' = S (h + m) /\
      cerr w' = cerr w /\
      now w' = now w + 1000 * (Z.of_nat m + 1).
Proof.
  induction m as [|m IH]; intros fuel n w h Hw Hn Hfuel.
  - destruct (rearmed_last w h fuel timer_id n Hw (or_intror Hn))
      as (w' & Hrun & Hq & Hth & Hm & Hcout & Hcerr & Hnow).
    exists w'. cbn [rearm_schedule repeat]. rewrite app_nil_r, Nat.add_0_r.
    repeat split; try assumption. all: rewrite Hnow; lia.
  - destruct fuel as [|fuel]; [lia|].
    assert (Hpos : 0 < n mod 256) by (rewrite Hn; lia).
    assert (Hlt : n mod 256 < 256) by (apply Z.mod_pos_bound; lia).
    destruct (rearmed_round w h fuel timer_id n Hw Hpos)
      as (w1 & Hrun1 & Hw1 & Hcout1 & Hcerr1 & Hnow1).
    assert (Hn1 : (n mod 256 - 1) mod 256 = Z.of_nat m).
    { rewrite Z.mod_small; rewrite Hn in *; lia. }
    assert (Hfuel1 : (m <= fuel)%nat) by lia.
    destruct (IH fuel (n mod 256 - 1) w1 (S h) Hw1 Hn1 Hfuel1)
      as (w' & Hrun & Hcout & Hq & Hth & Hm & Hcerr & Hnow).
    exists w'. split.
    { cbn [rearm_schedule]. rewrite run_app, Hrun1. exact Hrun. }
    split.
    { rewrite Hcout, Hcout1, <- app_assoc. reflexivity. }
    repeat split; try assumption.
    + rewrite Hm. f_equal. lia.
    + congruence.
    + rewrite Hnow, Hnow1. lia.
Qed.

(** [Model::Test()] of main.cpp, for any count: the member function
    [Model::OnTimer(timer_id, n)] scheduled with [n] fires, writes its line
    and re-arms itself with [n - 1] while its [uint8_t] count is positive.
    With a second between the firings, the line is written as many times as
    the count [n mod 256] says; then one more handler is called, writes
    nothing and arms nothing: the queue is empty, nothing is on
    [std::cerr], and the service thread is idle in [run()]. *)
Theorem self_rearming_timer_fires_count_times (t0 timer_id n : Z) :
  exists w',
    run (CallMember timer_id 1000 Model_OnTimer tt n
           :: rearm_schedule 0 (Z.to_nat (n mod 256)))
      (Scheduler no_faults t0) = Some w' /\
    cout w' =
      repeat ("timer " +:+ pretty timer_id +:+ " expired") (Z.to_nat (n mod 256)) /\
    cerr w' = [] /\
    timer_queue w' = ∅ /\
    timers_made w' = S (Z.to_nat (n mod 256)) /\
    io_service_thread_ w' = InRun None /\
    now w' = t0 + 1000 * (n mod 256 + 1).
Proof.
  pose proof (Z.mod_pos_bound n 256 ltac:(lia)) as Hbound.
  set (op := {| op_expiry := t0 + 1000;
                op_handler :=
                  wait_handler timer_id (member_callback Model_OnTimer tt) n |}).
  set (w0 := record (Armed 0 (t0 + 1000) (op_handler op))
               (set_queue (<[0%nat := op]> ∅)
                  (set_timers_made 1 (Scheduler no_faults t0)))).
  assert (H0 : step (CallMember timer_id 1000 Model_OnTimer tt n) (Scheduler no_faults t0)
               = Some w0) by reflexivity.
  assert (Hw0 : rearmed w0 0 256 timer_id n).
  { unfold rearmed. cbn. repeat split.
    - exists op. split; [apply lookup_insert_eq|]. split; [cbn; lia|reflexivity].
    - intros k Hk. rewrite lookup_insert_ne by congruence. apply lookup_empty. }
  assert (Hn : n mod 256 = Z.of_nat (Z.to_nat (n mod 256))) by (rewrite Z2Nat.id; lia).
  assert (Hfuel : (Z.to_nat (n mod 256) <= 256)%nat) by lia.
  destruct (rearmed_chain timer_id (Z.to_nat (n mod 256)) 256 n w0 0%nat Hw0 Hn Hfuel)
    as (w' & Hrun & Hcout & Hq & Hth & Hm & Hcerr & Hnow).
  exists w'. split.
  { cbn [run]. rewrite H0. exact Hrun. }
  repeat split; try assumption.
  rewrite Hnow. cbn. lia.
Qed.

(** ** A due timer is not held back *)


